(** * g0: the load generator's statistics collector, endpoint selector,
      worker delivery step and orchestrator, embedded from the Go sources

    Conventions of the embedding.
    - Go's [int], [int64] and [time.Duration] are 64-bit two's-complement
      integers: a value is a [Z] and every arithmetic result is passed
      through [wrap64].
    - A Go [error] is [option string]; [None] is [nil].
    - [map[int]int64] is a [gmap Z Z]; reading an absent key yields 0.
    - A method with a pointer receiver that mutates it is a function from the
      old state to the new state.
    - [time.Time] is an instant counted in nanoseconds from the zero
      [time.Time]; a clock reading is an argument of the function that
      takes it. *)

From Stdlib Require Import ZArith List Lia Ascii String Floats QArith Qround.
From stdpp Require Import gmap strings list fin_maps sorting pretty.

Local Close Scope Q_scope.
Local Open Scope Z_scope.

(** ** 64-bit integers *)

Module Int64.

Definition min_int64 : Z := - 2 ^ 63.
Definition max_int64 : Z := 2 ^ 63 - 1.

(** Two's-complement wrap-around of an exact result into the [int64] range. *)
Definition wrap64 (z : Z) : Z := (z + 2 ^ 63) mod 2 ^ 64 - 2 ^ 63.

Definition in_int64 (z : Z) : Prop := min_int64 <= z <= max_int64.

Definition add (a b : Z) : Z := wrap64 (a + b).
Definition mul (a b : Z) : Z := wrap64 (a * b).

(** Go's [a / b] on integers: truncated towards zero, and a run-time panic
    ("integer divide by zero") when [b] is 0, rendered as [None]. *)
Definition div (a b : Z) : option Z :=
  if b =? 0 then None else Some (wrap64 (Z.quot a b)).

(** Go's [a % b]: the remainder has the sign of the dividend. *)
Definition rem (a b : Z) : option Z :=
  if b =? 0 then None else Some (Z.rem a b).

(** [float64(x)] for an integer [x]: the nearest binary64 value. *)
Definition to_float64 (z : Z) : float :=
  SF2Prim (binary_normalize prec emax z 0 false).

End Int64.

Import Int64.

(** ** internal/runner/stats.go *)

Module Result.
Record t := mk {
  Latency : Z;
  StatusCode : Z;
  Error : option string;
}.
End Result.

Module Stats.
Record t := mk {
  TotalRequests : Z;
  SuccessRequests : Z;
  FailedRequests : Z;
  StatusCodeCounts : gmap Z Z;
  Latencies : list Z;
  StartTime : Z;
  EndTime : Z;
}.
End Stats.

Module Summary.
Record t := mk {
  TotalRequests : Z;
  SuccessRequests : Z;
  FailedRequests : Z;
  StatusCodeCounts : gmap Z Z;
  MinLatency : Z;
  MaxLatency : Z;
  AvgLatency : Z;
  P90Latency : Z;
  P95Latency : Z;
  P99Latency : Z;
  RPS : float;
  Duration : Z;
}.
End Summary.

Module ProgressStats.
Record t := mk {
  TotalRequests : Z;
  SuccessRequests : Z;
  FailedRequests : Z;
}.
End ProgressStats.

(** [NewStats], at the instant [now] read from the clock. *)
Definition NewStats (now : Z) : Stats.t :=
  Stats.mk 0 0 0 ∅ [] now 0.

(** [m[k]++] on a [map[int]int64]. *)
Definition map_incr (m : gmap Z Z) (k : Z) : gmap Z Z :=
  <[k := add (default 0 (m !! k)) 1]> m.

Definition is_err (e : option string) : bool :=
  match e with Some _ => true | None => false end.

Definition AddResult (s : Stats.t) (result : Result.t) : Stats.t :=
  let total := add (Stats.TotalRequests s) 1 in
  let latencies := Stats.Latencies s ++ [Result.Latency result] in
  let failure := is_err (Result.Error result) || (400 <=? Result.StatusCode result) in
  let failed :=
    if failure then add (Stats.FailedRequests s) 1 else Stats.FailedRequests s in
  let success :=
    if failure then Stats.SuccessRequests s else add (Stats.SuccessRequests s) 1 in
  let counts :=
    if is_err (Result.Error result) && (Result.StatusCode result =? 0)
    then map_incr (Stats.StatusCodeCounts s) 0
    else if 0 <? Result.StatusCode result
    then map_incr (Stats.StatusCodeCounts s) (Result.StatusCode result)
    else Stats.StatusCodeCounts s in
  Stats.mk total success failed counts latencies
           (Stats.StartTime s) (Stats.EndTime s).

(** [Finalize], at the instant [now] read from the clock. *)
Definition Finalize (s : Stats.t) (now : Z) : Stats.t :=
  Stats.mk (Stats.TotalRequests s) (Stats.SuccessRequests s)
           (Stats.FailedRequests s) (Stats.StatusCodeCounts s)
           (Stats.Latencies s) (Stats.StartTime s) now.

Definition GetProgressStats (s : Stats.t) : ProgressStats.t :=
  ProgressStats.mk (Stats.TotalRequests s) (Stats.SuccessRequests s)
                   (Stats.FailedRequests s).

(** ** internal/runner/percentiles.go *)

(** Conversion of a fractional number of nanoseconds to a [time.Duration]:
    truncation towards zero. *)
Definition Qtrunc (q : Q) : Z := Z.quot (Qnum q) (Zpos (Qden q)).

(** Modelled from the spec: [Percentile] (internal/runner/percentiles.go) is
    called by [GetSummary] but its file is not among the available sources.
    The spec gives the method: sort the full latency collection; the
    percentile-[p] value sits at index [p/100 * (n-1)] of the sorted sample;
    the fractional portion of that index linearly blends the two bracketing
    sorted samples.  Arithmetic is exact (rationals); the result is converted
    to a [time.Duration].  The spec is silent on an empty collection, which
    [GetSummary] never passes; 0 is returned there.  When the index is the
    last position the upper bracket does not exist and carries weight 0. *)
Definition Percentile (latencies : list Z) (p : Q) : Z :=
  match latencies with
  | [] => 0
  | _ =>
    let sorted := merge_sort Z.le latencies in
    let n := Z.of_nat (length sorted) in
    let index := (p / 100 * inject_Z (n - 1))%Q in
    let lower := Qfloor index in
    let upper := lower + 1 in
    let weight := (index - inject_Z lower)%Q in
    let below := inject_Z (nth (Z.to_nat lower) sorted 0) in
    let above := inject_Z (nth (Z.to_nat upper) sorted 0) in
    Qtrunc ((1 - weight) * below + weight * above)%Q
  end.

(** ** internal/runner/stats.go, continued *)

(** [t.Sub(u)]: the difference, saturated to the [time.Duration] range. *)
Definition time_Sub (t u : Z) : Z :=
  Z.max min_int64 (Z.min max_int64 (t - u)).

(** [d.Seconds()] of the [time] package. *)
Definition Duration_Seconds (d : Z) : float :=
  (to_float64 (Z.quot d 1000000000)
   + to_float64 (Z.rem d 1000000000) / 1e9)%float.

(** One round of the scan loop of [GetSummary] over [(min, max, sum)]. *)
Definition scan_step (acc : Z * Z * Z) (lat : Z) : Z * Z * Z :=
  let '(min, max, sum) := acc in
  let min := if lat <? min then lat else min in
  let max := if max <? lat then lat else max in
  (min, max, add sum lat).

(** [GetSummary]; [None] stands for a run-time panic. *)
Definition GetSummary (s : Stats.t) : option Summary.t :=
  match Stats.Latencies s with
  | [] =>
    Some (Summary.mk (Stats.TotalRequests s) (Stats.SuccessRequests s)
                     (Stats.FailedRequests s) (Stats.StatusCodeCounts s)
                     0 0 0 0 0 0 0%float 0)
  | first :: _ =>
    let '(min, max, sum) :=
      fold_left scan_step (Stats.Latencies s) (first, first, 0) in
    match div sum (Z.of_nat (length (Stats.Latencies s))) with
    | None => None
    | Some avg =>
      let p90 := Percentile (Stats.Latencies s) 90%Q in
      let p95 := Percentile (Stats.Latencies s) 95%Q in
      let p99 := Percentile (Stats.Latencies s) 99%Q in
      let duration := time_Sub (Stats.EndTime s) (Stats.StartTime s) in
      let rps :=
        if 0 <? duration
        then (to_float64 (Stats.TotalRequests s) / Duration_Seconds duration)%float
        else 0%float in
      Some (Summary.mk (Stats.TotalRequests s) (Stats.SuccessRequests s)
                       (Stats.FailedRequests s) (Stats.StatusCodeCounts s)
                       min max avg p90 p95 p99 rps duration)
    end
  end.

(** ** internal/runner/urlrotator.go *)

Module URLRotator.
Record t := mk {
  urls : list string;
  idx : Z;
}.
End URLRotator.

(** [NewURLRotator]; the [nil] pointer is [None]. *)
Definition NewURLRotator (urls : list string) : option URLRotator.t :=
  match urls with
  | [] => None
  | _ => Some (URLRotator.mk urls 0)
  end.

(** [a[i]] on a slice: a run-time panic ([None]) outside [0 <= i < len(a)]. *)
Definition index {A} (a : list A) (i : Z) : option A :=
  if i <? 0 then None else a !! Z.to_nat i.

(** [Next]: the returned string ([None] for a run-time panic) and the
    rotator after the call.  [atomic.AddInt64] returns the new value. *)
Definition Next (r : option URLRotator.t) : option string * option URLRotator.t :=
  match r with
  | None => (Some EmptyString, r)
  | Some rot =>
    match URLRotator.urls rot with
    | [] => (Some EmptyString, r)
    | [u] => (Some u, r)
    | us =>
      let new := add (URLRotator.idx rot) 1 in
      let idx := add new (-1) in
      (index us (Z.rem idx (Z.of_nat (length us))),
       Some (URLRotator.mk us new))
    end
  end.

(** [n] calls of [Next] one after the other, none overlapping another. *)
Fixpoint sequential_calls (n : nat) (r : option URLRotator.t) : list (option string) :=
  match n with
  | O => []
  | S n' => let '(u, r') := Next r in u :: sequential_calls n' r'
  end.

(** ** internal/httpclient/client.go *)

Module httpclient.

Module Request.
Record t := mk {
  Method : string;
  URL : string;
  Body : string;
  Headers : gmap string string;
  Context : option nat;
}.
End Request.

Module Response.
Record t := mk {
  StatusCode : Z;
  Latency : Z;
  Error : option string;
}.
End Response.

Section Do.
(** The collaborators of [Do] in the [net/http] and [time] packages:
    whether building the request fails, what the round trip yields (an
    error, or a response with its status code), and the two readings of
    [time.Since(start)].  The body reader and the default context only
    feed these calls. *)
Variable NewRequestWithContext : Request.t -> option string.
Variable httpClient_Do : Request.t -> string + Z.
Variable since_build since_reply : Z.

Definition Do (req : Request.t) : Response.t :=
  match NewRequestWithContext req with
  | Some err => Response.mk 0 since_build (Some err)
  | None =>
    let latency := since_reply in
    match httpClient_Do req with
    | inl err => Response.mk 0 latency (Some err)
    | inr status => Response.mk status latency None
    end
  end.
End Do.

End httpclient.

(** ** internal/runner/worker.go *)

(** The buffered results channel: what it holds, its capacity, and whether
    it has been closed. *)
Module Chan.
Record t := mk {
  buf : list Result.t;
  cap : nat;
  closed : bool;
}.
End Chan.

(** The two communications of the [select] that ends the worker's loop body. *)
Inductive SelectCase := CaseCtxDone | CaseSend.

(** A send can proceed when the buffer has room; on a closed channel it
    proceeds by panicking. *)
Definition send_ready (ch : Chan.t) : bool :=
  Chan.closed ch || (length (Chan.buf ch) <? Chan.cap ch)%nat.

(** The communications of that [select] that can proceed, in source order. *)
Definition ready_cases (ctx_done : bool) (ch : Chan.t) : list SelectCase :=
  (if ctx_done then [CaseCtxDone] else [])
  ++ (if send_ready ch then [CaseSend] else []).

Inductive Delivery :=
| Exit                      (* [return]: the worker stops *)
| Recovered                 (* send on a closed channel, caught by [recover] *)
| Delivered (ch : Chan.t)   (* the Result is on the channel; the loop goes on *)
| Blocked.                  (* no communication can proceed yet *)

(** The [select] of the delivery step.  Go's rule: if one or more of the
    communications can proceed, a single one of them is chosen by a uniform
    pseudo-random selection; [pick] is that choice of the run-time. *)
Definition deliver (pick : nat) (ctx_done : bool) (ch : Chan.t)
    (result : Result.t) : Delivery :=
  let cases := ready_cases ctx_done ch in
  match nth_error cases (pick mod length cases) with
  | None => Blocked
  | Some CaseCtxDone => Exit
  | Some CaseSend =>
    if Chan.closed ch then Recovered
    else Delivered (Chan.mk (Chan.buf ch ++ [result]) (Chan.cap ch) false)
  end.

(** What one pass through the loop body of [Start] meets outside the worker:
    the state of the context at its two checks, the answer of
    [rateLimiter.Wait], the collaborators of [client.Do], and the choice of
    the final [select]. *)
Module Round.
Record t := mk {
  done_at_top : bool;
  permit : bool;
  NewRequestWithContext : httpclient.Request.t -> option string;
  httpClient_Do : httpclient.Request.t -> string + Z;
  since_build : Z;
  since_reply : Z;
  done_at_send : bool;
  pick : nat;
}.
End Round.

Module Worker.
Record t := mk {
  request : httpclient.Request.t;
  results : Chan.t;
  urlRotator : option URLRotator.t;
}.
End Worker.

(** The context handed to every worker of a run. *)
Definition ctx : option nat := Some 0%nat.

(** [Start], one loop iteration per element of [rounds].  The result is the
    worker's final state and whether it has left the loop. *)
Fixpoint Start (w : Worker.t) (rounds : list Round.t) : Worker.t * bool :=
  match rounds with
  | [] => (w, false)
  | e :: rest =>
    if Round.done_at_top e then (w, true)
    else if negb (Round.permit e) then (w, true)
    else
      let '(selectedURL, rot) := Next (Worker.urlRotator w) in
      match selectedURL with
      | None => (Worker.mk (Worker.request w) (Worker.results w) rot, true)
      | Some EmptyString =>
        Start (Worker.mk (Worker.request w) (Worker.results w) rot) rest
      | Some url =>
        let request :=
          httpclient.Request.mk
            (httpclient.Request.Method (Worker.request w)) url
            (httpclient.Request.Body (Worker.request w))
            (httpclient.Request.Headers (Worker.request w)) ctx in
        let resp :=
          httpclient.Do (Round.NewRequestWithContext e) (Round.httpClient_Do e)
                        (Round.since_build e) (Round.since_reply e) request in
        let result :=
          Result.mk (httpclient.Response.Latency resp)
                    (httpclient.Response.StatusCode resp)
                    (httpclient.Response.Error resp) in
        match deliver (Round.pick e) (Round.done_at_send e)
                      (Worker.results w) result with
        | Delivered ch => Start (Worker.mk (Worker.request w) ch rot) rest
        | Blocked =>
          (Worker.mk (Worker.request w) (Worker.results w) rot, false)
        | Exit | Recovered =>
          (Worker.mk (Worker.request w) (Worker.results w) rot, true)
        end
      end
  end.

(** ** internal/runner/runner.go *)

Module Config.
Record t := mk {
  URLs : list string;
  Concurrency : Z;
  Duration : Z;
  Method : string;
  Body : string;
  Headers : gmap string string;
  MaxRPS : Z;
}.
End Config.

Module RunResult.
Record t := mk {
  Stats : Stats.t;
  Summary : Summary.t;
}.
End RunResult.

(** How a call ends: an [error] return, a run-time panic or fatal run-time
    error, no return at all, or a value. *)
Inductive outcome (A : Type) :=
| Err (msg : string)
| Panic
| NoReturn
| Ok (a : A).
Arguments Err {A} msg.
Arguments Panic {A}.
Arguments NoReturn {A}.
Arguments Ok {A} a.

(** How the collector goroutine of a run ends.  Until the deadline it adds
    every Result it receives.  Once the context is done its outer [select]
    has two ways to go.
    - [ExitsOnClose]: it keeps receiving until the channel, closed by the
      orchestrator and emptied, answers [!ok]; every Result sent was added.
    - [ExitsOnDrain n]: it takes [ctx.Done()] and its drain loop finds the
      still open channel empty ([default]) when [n] Results have been added
      in all; Results sent later stay on the channel.
    - [Spins]: it takes [ctx.Done()] and the channel is closed while the
      drain loop runs; a receive from a closed channel always succeeds, with
      the zero Result, so [default] is never taken, the loop adds zero
      Results for ever, [statsDone] is never closed and the orchestrator
      waits for it for ever. *)
Inductive Collector :=
| ExitsOnClose
| ExitsOnDrain (n : nat)
| Spins.

Section Run.
(** What a run meets outside the orchestrator.
    - [start_time], [end_time]: the clock at [NewStats] and at [Finalize].
    - [max_chan_size]: the largest buffer that [make(chan Result, n)] can
      allocate on the machine; a larger [n] ends the program.
    - [NewRateLimiter_returns]: whether [NewRateLimiter] (ratelimiter.go,
      not among the available sources) returns for a given rate rather than
      panicking; the limiter itself only paces the workers.
    - [delivered]: the Results that the workers put on the results channel,
      in the order of the channel.
    - [collector]: how the collector goroutine ends. *)
Variable start_time end_time : Z.
Variable max_chan_size : N.
Variable NewRateLimiter_returns : Z -> bool.
Variable delivered : list Result.t.
Variable collector : Collector.

(** The end of [RunWithStatsAndChannel] once the collector has stopped
    having added the Results [added]: [Finalize], then [GetSummary]. *)
Definition finish (added : list Result.t) (workers : nat)
    : outcome RunResult.t * nat :=
  let stats := fold_left AddResult added (NewStats start_time) in
  let stats := Finalize stats end_time in
  match GetSummary stats with
  | None => (Panic, workers)
  | Some summary => (Ok (RunResult.mk stats summary), workers)
  end.

(** [RunWithStatsAndChannel] for the nil [statsChan] that [RunWithStats]
    passes, together with the number of worker goroutines it has started.
    [make(chan Result, n)] panics for a negative [n] and for one too large.
    Without a worker nothing is sent on the channel.  The workers are taken
    to stop once the context is done, so that [wg.Wait()] returns. *)
Definition RunWithStatsAndChannel (config : Config.t)
    : outcome RunResult.t * nat :=
  if (length (Config.URLs config) =? 0)%nat
  then (Err "at least one URL is required", 0%nat)
  else
    let size := mul (Config.Concurrency config) 10 in
    if (size <? 0) || (Z.of_N max_chan_size <? size)
    then (Panic, 0%nat)
    else if (0 <? Config.MaxRPS config)
            && negb (NewRateLimiter_returns (Config.MaxRPS config))
    then (Panic, 0%nat)
    else
      let workers := Z.to_nat (Config.Concurrency config) in
      let sent := if (workers =? 0)%nat then [] else delivered in
      match collector with
      | ExitsOnClose => finish sent workers
      | ExitsOnDrain n => finish (take n sent) workers
      | Spins => (NoReturn, workers)
      end.

Definition RunWithStats (config : Config.t) : outcome RunResult.t * nat :=
  RunWithStatsAndChannel config.

Definition Run (config : Config.t) : outcome Summary.t * nat :=
  match RunWithStats config with
  | (Err msg, started) => (Err msg, started)
  | (Panic, started) => (Panic, started)
  | (NoReturn, started) => (NoReturn, started)
  | (Ok result, started) => (Ok (RunResult.Summary result), started)
  end.
End Run.

(** ** cmd/run.go *)

(** The checks of [runLoadTest] that precede the call of the runner, up to
    the one on the concurrency: the error it returns, or [None] when it goes
    on.  [parsed] is the result of [time.ParseDuration]. *)
Definition runLoadTest_checks (parsed : option Z) (urls : list string)
    (concurrency : Z) : option string :=
  match parsed with
  | None => Some "invalid duration format"
  | Some _ =>
    if (length urls =? 0)%nat
    then Some "at least one URL is required (use --url or -u)"
    else if concurrency <=? 0
    then Some "concurrency must be greater than 0"
    else None
  end.

(** ** Vocabulary of the statements *)

(** The sum of the values of the status-code histogram. *)
Definition hist_sum (m : gmap Z Z) : Z :=
  map_fold (fun _ v acc => v + acc) 0 m.

(** Whether [AddResult] enters a Result in the histogram: under key 0 for an
    error without status, under its status when that is positive. *)
Definition recorded (r : Result.t) : bool :=
  (is_err (Result.Error r) && (Result.StatusCode r =? 0))
  || (0 <? Result.StatusCode r).

(** The state after [n] calls that did not overflow a counter. *)
Record counted (s : Stats.t) (n : Z) : Prop := {
  counted_total : Stats.TotalRequests s = n;
  counted_split : Stats.SuccessRequests s + Stats.FailedRequests s = n;
  counted_success : 0 <= Stats.SuccessRequests s;
  counted_failed : 0 <= Stats.FailedRequests s;
  counted_latencies : Z.of_nat (length (Stats.Latencies s)) = n;
}.

(** The state after [n] calls, in the collector's own 64-bit arithmetic. *)
Record counted_wrapping (s : Stats.t) (n : Z) : Prop := {
  wrapping_total : Stats.TotalRequests s = wrap64 n;
  wrapping_split :
    add (Stats.SuccessRequests s) (Stats.FailedRequests s) = wrap64 n;
  wrapping_latencies : Z.of_nat (length (Stats.Latencies s)) = n;
}.

(** Sample Results: a success, an HTTP-level failure, a transport failure. *)
Definition ok200 : Result.t := Result.mk 1500000 200 None.
Definition err500 : Result.t := Result.mk 2500000 500 None.
Definition net_error : Result.t := Result.mk 30000000000 0 (Some "timeout").

(** The histogram after calls of which [c] were recorded in it. *)
Record tallied (s : Stats.t) (c : Z) : Prop := {
  tallied_sum : hist_sum (Stats.StatusCodeCounts s) = c;
  tallied_values :
    forall k v, Stats.StatusCodeCounts s !! k = Some v -> 0 < v <= c;
}.

(** A Result with neither a status nor an error. *)
Definition blank : Result.t := Result.mk 1000 0 None.

(** The Summary of a run without a single Result. *)
Definition zero_summary : Summary.t :=
  Summary.mk 0 0 0 ∅ 0 0 0 0 0 0 0%float 0.

(** Three endpoints. *)
Definition A : string := "http://a.example".
Definition B : string := "http://b.example".
Definition C : string := "http://c.example".

(** A configuration with one endpoint and the given concurrency. *)
Definition one_endpoint (concurrency : Z) : Config.t :=
  Config.mk [A] concurrency 1000000000 "GET" "" ∅ 0.

(** A worker over the three endpoints with an empty results channel sized
    for one worker. *)
Definition fresh_worker : Worker.t :=
  Worker.mk (httpclient.Request.mk "GET" "" "" ∅ None)
            (Chan.mk [] 10 false)
            (NewURLRotator [A; B; C]).

(** A pass of the loop in which the deadline fires while the request is in
    flight: the context is live at the top of the loop, the round trip is
    abandoned with an error, the context is done at the final [select], and
    the run-time picks the second of the ready communications. *)
Definition cancelled_mid_request : Round.t :=
  Round.mk false true (fun _ => None) (fun _ => inl "context deadline exceeded")
           0 250000000 true 1.

(** The Result of that abandoned call. *)
Definition abandoned : Result.t :=
  Result.mk 250000000 0 (Some "context deadline exceeded").

(** The percentile of an already sorted sample in integer arithmetic: the
    index [p/100 * (n-1)] is [rank / 100] with [rank = p * (n-1)]; its whole
    part [k] and its fractional part [f/100] select and weigh the two
    bracketing samples. *)
Definition percentile_reference (sorted : list Z) (p : Z) : Z :=
  let rank := p * (Z.of_nat (length sorted) - 1) in
  let k := rank / 100 in
  let f := rank mod 100 in
  Z.quot (nth (Z.to_nat k) sorted 0 * (100 - f)
          + nth (Z.to_nat (k + 1)) sorted 0 * f) 100.

(** The exact sum of a collection of latencies. *)
Definition list_sum (l : list Z) : Z := fold_right Z.add 0 l.

(** A collector holding the given latencies, all of successful requests. *)
Definition collector_of (latencies : list Z) : Stats.t :=
  fold_left AddResult (map (fun lat => Result.mk lat 200 None) latencies)
            (NewStats 0).

(** 1000 latencies spread evenly from 1ms to 100ms. *)
Definition uniform_1ms_100ms : list Z :=
  map (fun i => 1000000 + Z.of_nat i * 99000000 / 999) (seq 0 1000).

(** Two latencies of 2^62 ns each: their sum leaves the [int64] range. *)
Definition two_huge : list Z := [2 ^ 62; 2 ^ 62].

(** ** Vocabulary of the further properties *)

(** Whether [AddResult] counts a Result as failed. *)
Definition failing (r : Result.t) : bool :=
  is_err (Result.Error r) || (400 <=? Result.StatusCode r).

(** The histogram key under which [AddResult] enters a Result, if any. *)
Definition hist_key (r : Result.t) : option Z :=
  if is_err (Result.Error r) && (Result.StatusCode r =? 0) then Some 0
  else if 0 <? Result.StatusCode r then Some (Result.StatusCode r)
  else None.

(** How many elements of a list pass a test. *)
Definition count_where {X} (f : X -> bool) (l : list X) : Z :=
  Z.of_nat (length (List.filter f l)).

(** Whether a Result is entered under key [k]. *)
Definition keyed (k : Z) (r : Result.t) : bool :=
  match hist_key r with
  | Some k' => k' =? k
  | None => false
  end.

(** Two collectors that differ at most in the order of their latencies. *)
Record same_sample (s s' : Stats.t) : Prop := {
  same_total : Stats.TotalRequests s = Stats.TotalRequests s';
  same_success : Stats.SuccessRequests s = Stats.SuccessRequests s';
  same_failed : Stats.FailedRequests s = Stats.FailedRequests s';
  same_counts : Stats.StatusCodeCounts s = Stats.StatusCodeCounts s';
  same_latencies : Stats.Latencies s ≡ₚ Stats.Latencies s';
  same_start : Stats.StartTime s = Stats.StartTime s';
  same_end : Stats.EndTime s = Stats.EndTime s';
}.

(** The rotator after [n] calls of [Next] one after the other. *)
Fixpoint after_calls (n : nat) (r : option URLRotator.t) : option URLRotator.t :=
  match n with
  | O => r
  | S n' => after_calls n' (snd (Next r))
  end.

(** A Result in which an error comes with status code 0 only. *)
Definition paired (r : Result.t) : Prop :=
  is_err (Result.Error r) = true -> Result.StatusCode r = 0.

(** A round whose transport hands back positive status codes only. *)
Definition positive_statuses (e : Round.t) : Prop :=
  forall req status, Round.httpClient_Do e req = inr status -> 0 < status.

(** A round in which the deadline has not fired and a permit is granted. *)
Definition live (e : Round.t) : Prop :=
  Round.done_at_top e = false /\ Round.permit e = true
  /\ Round.done_at_send e = false.

(** A pass of the loop with a live context and a server answering 200. *)
Definition live_200 : Round.t :=
  Round.mk false true (fun _ => None) (fun _ => inr 200) 0 1500000 false 0.

(** ** cmd/run.go, continued *)

(** [strings.SplitN(h, ":", 2)] as [runLoadTest] uses it: [None] when the
    result has a single part ([h] holds no colon), else the parts before and
    after the first colon. *)
Fixpoint cut_colon (h : string) : option (string * string) :=
  match h with
  | EmptyString => None
  | String c rest =>
    if Ascii.eqb c ":"%char then Some (EmptyString, rest)
    else match cut_colon rest with
         | Some (key, value) => Some (String c key, value)
         | None => None
         end
  end.

Section Headers.
(** [strings.TrimSpace] of the standard library. *)
Variable TrimSpace : string -> string.

(** The header loop of [runLoadTest] over the [--headers] flags, starting
    from the map built so far: the error of the first malformed header, or
    the map. *)
Fixpoint parse_headers (headers : list string) (headerMap : gmap string string)
    : string + gmap string string :=
  match headers with
  | [] => inr headerMap
  | h :: rest =>
    match cut_colon h with
    | None =>
      inl ("invalid header format: " ++ h ++ " (expected 'Key: Value')")%string
    | Some (key, value) =>
      parse_headers rest (<[TrimSpace key := TrimSpace value]> headerMap)
    end
  end.

(** [runLoadTest] up to the construction of the runner's configuration: the
    error it returns, or the [Config] it passes to the runner.  [parsed] is
    the result of [time.ParseDuration].  The logo and the test configuration
    are printed between the header loop and the check on max-rps; printing
    is left out. *)
Definition runLoadTest_config (parsed : option Z) (urls : list string)
    (concurrency : Z) (method body : string) (headers : list string)
    (maxRPS : Z) : string + Config.t :=
  match parsed with
  | None => inl "invalid duration format"
  | Some testDuration =>
    if (length urls =? 0)%nat
    then inl "at least one URL is required (use --url or -u)"
    else if concurrency <=? 0
    then inl "concurrency must be greater than 0"
    else
      match parse_headers headers ∅ with
      | inl err => inl err
      | inr headerMap =>
        if maxRPS <? 0
        then inl "max-rps must be greater than or equal to 0"
        else inr (Config.mk urls concurrency testDuration method body
                            headerMap maxRPS)
      end
  end.
End Headers.

(** ** internal/printer/report.go *)

(** The key of a status code in the JSON report: ["error"] for the 0
    sentinel, else [fmt.Sprintf("%d", code)]. *)
Definition status_key (code : Z) : string :=
  if code =? 0 then "error" else pretty code.

(** The conversion loop of [PrintResultsJSON] from the histogram to the
    [status_codes] object. *)
Definition json_status_codes (counts : gmap Z Z) : gmap string Z :=
  map_fold (fun code count statusCodes => <[status_key code := count]> statusCodes)
           ∅ counts.

(** Stripping of leading blanks; it agrees with [strings.TrimSpace] on
    strings whose only surrounding white space is leading blanks. *)
Fixpoint trim_left (s : string) : string :=
  match s with
  | String " "%char rest => trim_left rest
  | _ => s
  end.

(** A string that does not begin with the letter e. *)
Definition no_leading_e (s : string) : Prop :=
  match s with
  | String c _ => c <> "e"%char
  | EmptyString => True
  end.

(** What the conversion loop has built from the histogram [m]: the entry of
    every code under its key, nothing under any other key, and as many
    entries as the histogram has. *)
Record json_of (statusCodes : gmap string Z) (m : gmap Z Z) : Prop := {
  json_lookup : forall code, statusCodes !! status_key code = m !! code;
  json_other :
    forall key, (forall code, key <> status_key code) ->
                statusCodes !! key = None;
  json_size : size statusCodes = size m;
}.

(** A machine on which a channel of up to a million Results can be made. *)
Definition roomy : N := 1000000%N.

(** A rate limiter whose construction returns for every rate. *)
Definition limiter_returns : Z -> bool := fun _ => true.

(** * Properties *)

(** ** 64-bit arithmetic *)

Lemma wrap64_id z : in_int64 z -> wrap64 z = z.
Proof.
  unfold in_int64, min_int64, max_int64, wrap64. intros H.
  rewrite Z.mod_small; lia.
Qed.

Lemma add_exact a b : in_int64 (a + b) -> add a b = a + b.
Proof. apply wrap64_id. Qed.

Lemma wrap64_add_l a b : wrap64 (wrap64 a + b) = wrap64 (a + b).
Proof.
  unfold wrap64.
  replace ((a + 2 ^ 63) mod 2 ^ 64 - 2 ^ 63 + b + 2 ^ 63)
    with ((a + 2 ^ 63) mod 2 ^ 64 + b) by lia.
  rewrite Zplus_mod_idemp_l. do 2 f_equal. lia.
Qed.

Lemma wrap64_add_r a b : wrap64 (a + wrap64 b) = wrap64 (a + b).
Proof. rewrite Z.add_comm, wrap64_add_l. f_equal. lia. Qed.

Lemma max_int64_pos : 0 < max_int64.
Proof. reflexivity. Qed.

Lemma in_int64_small n : 0 <= n <= max_int64 -> in_int64 n.
Proof. unfold in_int64, min_int64, max_int64. lia. Qed.

(** ** The counters of the collector *)

Lemma counted_NewStats now : counted (NewStats now) 0.
Proof. split; simpl; lia. Qed.

Lemma counted_AddResult s n r :
  counted s n -> n + 1 <= max_int64 -> counted (AddResult s r) (n + 1).
Proof.
  intros [Ht Hs H1 H2 Hl] Hn. pose proof max_int64_pos.
  assert (0 <= n) by lia.
  unfold AddResult.
  destruct (is_err (Result.Error r) || (400 <=? Result.StatusCode r));
    split; simpl; rewrite ?length_app; simpl;
    rewrite ?add_exact by (apply in_int64_small; lia); lia.
Qed.

Lemma counted_fold rs : forall s n,
  counted s n -> n + Z.of_nat (length rs) <= max_int64 ->
  counted (fold_left AddResult rs s) (n + Z.of_nat (length rs)).
Proof.
  induction rs as [|r rs IH]; intros s n Hc Hn.
  - simpl. now rewrite Z.add_0_r.
  - change (length (r :: rs)) with (S (length rs)) in *.
    rewrite Nat2Z.inj_succ in *.
    replace (n + Z.succ (Z.of_nat (length rs)))
      with ((n + 1) + Z.of_nat (length rs)) by lia.
    simpl fold_left.
    apply IH; [apply counted_AddResult; [assumption | lia] | lia].
Qed.

Lemma counted_Finalize s n now : counted s n -> counted (Finalize s now) n.
Proof. intros [? ? ? ? ?]. split; simpl; assumption. Qed.

(** [GetSummary] always returns, and hands the three counters and the
    histogram over unchanged. *)
Lemma GetSummary_returns s :
  exists sm, GetSummary s = Some sm
    /\ Summary.TotalRequests sm = Stats.TotalRequests s
    /\ Summary.SuccessRequests sm = Stats.SuccessRequests s
    /\ Summary.FailedRequests sm = Stats.FailedRequests s
    /\ Summary.StatusCodeCounts sm = Stats.StatusCodeCounts s.
Proof.
  unfold GetSummary. destruct (Stats.Latencies s) as [|first rest] eqn:E.
  - eexists. split; [reflexivity | simpl; auto].
  - destruct (fold_left scan_step (first :: rest) (first, first, 0))
      as [[mn mx] sm].
    unfold div. simpl length.
    destruct (Z.eqb_spec (Z.of_nat (S (length rest))) 0) as [E0|_]; [lia|].
    eexists. split; [reflexivity | simpl; auto].
Qed.

Lemma counted_wrapping_NewStats now : counted_wrapping (NewStats now) 0.
Proof. split; reflexivity. Qed.

Lemma counted_wrapping_AddResult s n r :
  counted_wrapping s n -> counted_wrapping (AddResult s r) (n + 1).
Proof.
  intros [Ht Hs Hl]. unfold AddResult.
  assert (Hstep : wrap64 (Stats.SuccessRequests s + Stats.FailedRequests s + 1)
                  = wrap64 (n + 1)).
  { rewrite <- wrap64_add_l. unfold add in Hs. rewrite Hs.
    apply wrap64_add_l. }
  destruct (is_err (Result.Error r) || (400 <=? Result.StatusCode r));
    split; simpl; unfold add in *;
    rewrite ?Ht, ?wrap64_add_l, ?wrap64_add_r, ?length_app; simpl;
    try lia; rewrite <- Hstep; f_equal; lia.
Qed.

Lemma counted_wrapping_fold rs : forall s n,
  counted_wrapping s n ->
  counted_wrapping (fold_left AddResult rs s) (n + Z.of_nat (length rs)).
Proof.
  induction rs as [|r rs IH]; intros s n Hc.
  - simpl. now rewrite Z.add_0_r.
  - change (length (r :: rs)) with (S (length rs)).
    rewrite Nat2Z.inj_succ.
    replace (n + Z.succ (Z.of_nat (length rs)))
      with ((n + 1) + Z.of_nat (length rs)) by lia.
    simpl fold_left. apply IH. now apply counted_wrapping_AddResult.
Qed.

(** C1. After every sequence of [N] calls of [AddResult] on a fresh
    collector, with arbitrary Results, the collector holds [N] latencies and,
    in its own 64-bit arithmetic, [TotalRequests == N] and [SuccessRequests +
    FailedRequests == TotalRequests].  A Go slice holds at most [max_int64]
    elements, so [N <= max_int64] whenever the [N] calls have returned; then
    no counter has wrapped around: [TotalRequests = N], [SuccessRequests +
    FailedRequests = TotalRequests] with both terms non-negative, and
    [GetSummary] (before or after [Finalize]) returns a Summary with those
    same counts.  The statement is for every sequence, hence for the state
    after every single call. *)
Theorem AddResult_counts (now : Z) (rs : list Result.t) :
  let s := fold_left AddResult rs (NewStats now) in
  let N := Z.of_nat (length rs) in
  (Z.of_nat (length (Stats.Latencies s)) = N
   /\ Stats.TotalRequests s = wrap64 N
   /\ add (Stats.SuccessRequests s) (Stats.FailedRequests s)
      = Stats.TotalRequests s)
  /\ (N <= max_int64 ->
      Stats.TotalRequests s = N
      /\ Stats.SuccessRequests s + Stats.FailedRequests s
         = Stats.TotalRequests s
      /\ 0 <= Stats.SuccessRequests s /\ 0 <= Stats.FailedRequests s
      /\ (forall s', s' = s \/ (exists fin, s' = Finalize s fin) ->
           exists sm, GetSummary s' = Some sm
             /\ Summary.TotalRequests sm = N
             /\ Summary.SuccessRequests sm + Summary.FailedRequests sm = N
             /\ Summary.SuccessRequests sm = Stats.SuccessRequests s
             /\ Summary.FailedRequests sm = Stats.FailedRequests s)).
Proof.
  intros s N. split.
  - pose proof (counted_wrapping_fold rs (NewStats now) 0
                  (counted_wrapping_NewStats now)) as Hw.
    rewrite Z.add_0_l in Hw. fold s N in Hw. destruct Hw as [Ht Hs Hl].
    rewrite Hs, Ht. auto.
  - intros Hlen.
    pose proof (counted_fold rs (NewStats now) 0 (counted_NewStats now)) as Hc.
    specialize (Hc ltac:(lia)). rewrite Z.add_0_l in Hc. fold s N in Hc.
    destruct Hc as [Ht Hs H1 H2 _].
    repeat split; try lia.
    intros s' Hs'.
    destruct (GetSummary_returns s') as (sm & -> & Et & Es & Ef & _).
    exists sm. split; [reflexivity|].
    destruct Hs' as [-> | [fin ->]]; simpl in *; repeat split; lia.
Qed.

Lemma AddResult_counts_witness :
  let s := fold_left AddResult [ok200; err500; net_error] (NewStats 0) in
  Stats.TotalRequests s = 3
  /\ Stats.SuccessRequests s + Stats.FailedRequests s = Stats.TotalRequests s.
Proof.
  destruct (AddResult_counts 0 [ok200; err500; net_error]) as (_ & H).
  destruct H as (Ht & Hs & _); [vm_compute; discriminate|].
  split; [exact Ht | exact Hs].
Defined.

(** C10. A Result with [StatusCode = 0] and a [nil] [Error] is counted as a
    success: [AddResult] increments [SuccessRequests], leaves
    [FailedRequests] as it is, and leaves the status-code histogram as it is
    (the Result is recorded under no key). *)
Theorem AddResult_zero_status_nil_error (s : Stats.t) (r : Result.t) :
  Result.StatusCode r = 0 -> Result.Error r = None ->
  Stats.SuccessRequests (AddResult s r) = add (Stats.SuccessRequests s) 1
  /\ Stats.FailedRequests (AddResult s r) = Stats.FailedRequests s
  /\ Stats.StatusCodeCounts (AddResult s r) = Stats.StatusCodeCounts s
  /\ Stats.TotalRequests (AddResult s r) = add (Stats.TotalRequests s) 1.
Proof.
  intros Hc He. unfold AddResult. rewrite Hc, He. simpl. auto.
Qed.

Lemma AddResult_zero_status_nil_error_witness :
  Stats.SuccessRequests (AddResult (NewStats 0) blank) = 1
  /\ Stats.FailedRequests (AddResult (NewStats 0) blank) = 0
  /\ Stats.StatusCodeCounts (AddResult (NewStats 0) blank) = ∅.
Proof.
  destruct (AddResult_zero_status_nil_error (NewStats 0) blank
              eq_refl eq_refl) as (Hs & Hf & Hm & _).
  split; [exact Hs | split; [exact Hf | exact Hm]].
Defined.

(** ** The status-code histogram *)

Lemma hist_sum_empty : hist_sum ∅ = 0.
Proof. apply map_fold_empty. Qed.

Lemma hist_sum_insert_fresh (m : gmap Z Z) k v :
  m !! k = None -> hist_sum (<[k := v]> m) = v + hist_sum m.
Proof.
  intros Hk. unfold hist_sum.
  rewrite map_fold_insert_L; [reflexivity | intros; lia | exact Hk].
Qed.

Lemma hist_sum_delete (m : gmap Z Z) k v :
  m !! k = Some v -> hist_sum m = v + hist_sum (delete k m).
Proof.
  intros Hk. unfold hist_sum.
  rewrite (map_fold_delete_L _ _ k v m); [reflexivity | intros; lia | exact Hk].
Qed.

Lemma hist_sum_insert (m : gmap Z Z) k v :
  hist_sum (<[k := v]> m) = hist_sum m - default 0 (m !! k) + v.
Proof.
  destruct (m !! k) as [old|] eqn:Hk; simpl.
  - rewrite <- insert_delete_eq.
    rewrite hist_sum_insert_fresh by apply lookup_delete_eq.
    rewrite (hist_sum_delete m k old Hk). lia.
  - rewrite hist_sum_insert_fresh by exact Hk. lia.
Qed.

Lemma tallied_NewStats now : tallied (NewStats now) 0.
Proof.
  split; simpl.
  - apply hist_sum_empty.
  - intros k v H. rewrite lookup_empty in H. discriminate.
Qed.

Lemma tallied_map_incr (m : gmap Z Z) c k :
  hist_sum m = c -> (forall j v, m !! j = Some v -> 0 < v <= c) ->
  0 <= c -> c + 1 <= max_int64 ->
  hist_sum (map_incr m k) = c + 1
  /\ (forall j v, map_incr m k !! j = Some v -> 0 < v <= c + 1).
Proof.
  intros Hs Hv Hc Hmax. unfold map_incr.
  assert (Hold : 0 <= default 0 (m !! k) <= c).
  { destruct (m !! k) as [old|] eqn:Hk; simpl; [|lia].
    specialize (Hv k old Hk). lia. }
  rewrite add_exact by (apply in_int64_small; lia).
  split.
  - rewrite hist_sum_insert. lia.
  - intros j v. rewrite lookup_insert. case_decide.
    + intros [= <-]. lia.
    + intros H'. specialize (Hv j v H'). lia.
Qed.

Lemma tallied_AddResult s c r :
  tallied s c -> 0 <= c -> c + 1 <= max_int64 ->
  tallied (AddResult s r) (c + (if recorded r then 1 else 0)).
Proof.
  intros [Hs Hv] Hc Hmax. unfold recorded, AddResult.
  destruct (is_err (Result.Error r) && (Result.StatusCode r =? 0)); simpl.
  - destruct (tallied_map_incr _ c 0 Hs Hv Hc Hmax). split; simpl; assumption.
  - destruct (0 <? Result.StatusCode r).
    + destruct (tallied_map_incr _ c (Result.StatusCode r) Hs Hv Hc Hmax).
      split; simpl; assumption.
    + rewrite Z.add_0_r. split; simpl; assumption.
Qed.

Lemma tallied_fold rs : forall s c,
  tallied s c -> 0 <= c -> c + Z.of_nat (length rs) <= max_int64 ->
  tallied (fold_left AddResult rs s)
          (c + Z.of_nat (length (List.filter recorded rs))).
Proof.
  induction rs as [|r rs IH]; intros s c Ht Hc Hmax.
  - simpl. now rewrite Z.add_0_r.
  - change (length (r :: rs)) with (S (length rs)) in Hmax.
    rewrite Nat2Z.inj_succ in Hmax.
    simpl fold_left. simpl List.filter.
    pose proof (tallied_AddResult s c r Ht Hc ltac:(lia)) as Ht'.
    destruct (recorded r).
    + change (length (r :: List.filter recorded rs))
        with (S (length (List.filter recorded rs))).
      rewrite Nat2Z.inj_succ.
      replace (c + Z.succ (Z.of_nat (length (List.filter recorded rs))))
        with ((c + 1) + Z.of_nat (length (List.filter recorded rs))) by lia.
      apply IH; [assumption | lia | lia].
    + rewrite Z.add_0_r in Ht'. apply IH; [assumption | lia | lia].
Qed.

Lemma filter_all {A} (f : A -> bool) (l : list A) :
  Forall (fun x => f x = true) l -> List.filter f l = l.
Proof.
  induction 1 as [|x l Hx _ IH]; simpl; [reflexivity|].
  rewrite Hx, IH. reflexivity.
Qed.

(** C2, as the code has it.  After every sequence of at most [max_int64]
    calls of [AddResult] on a fresh collector, every key of the status-code
    histogram maps to a positive (hence non-negative) count, and the sum of
    the histogram's values is the number of added Results that were recorded
    in it: those with a positive status code, and those with an error and
    status code 0.  The sum is [TotalRequests] when every added Result is of
    that kind, and never exceeds it. *)
Theorem histogram_tally (now : Z) (rs : list Result.t) :
  Z.of_nat (length rs) <= max_int64 ->
  let s := fold_left AddResult rs (NewStats now) in
  (forall k v, Stats.StatusCodeCounts s !! k = Some v -> 0 < v)
  /\ hist_sum (Stats.StatusCodeCounts s)
     = Z.of_nat (length (List.filter recorded rs))
  /\ hist_sum (Stats.StatusCodeCounts s) <= Stats.TotalRequests s
  /\ (Forall (fun r => recorded r = true) rs ->
      hist_sum (Stats.StatusCodeCounts s) = Stats.TotalRequests s).
Proof.
  intros Hlen s.
  pose proof (tallied_fold rs (NewStats now) 0 (tallied_NewStats now)
                ltac:(lia) ltac:(lia)) as [Hsum Hval].
  pose proof (counted_fold rs (NewStats now) 0 (counted_NewStats now)
                ltac:(lia)) as [Ht _ _ _ _].
  fold s in Hsum, Hval, Ht. rewrite Z.add_0_l in *.
  pose proof (filter_length_le recorded rs) as Hle.
  repeat split.
  - intros k v H. apply (Hval k v H).
  - exact Hsum.
  - rewrite Hsum, Ht. lia.
  - intros Hall. rewrite Hsum, Ht, (filter_all recorded rs Hall). reflexivity.
Qed.

Lemma histogram_tally_witness :
  let s := fold_left AddResult [ok200; err500; net_error; ok200] (NewStats 0) in
  hist_sum (Stats.StatusCodeCounts s) = 4
  /\ hist_sum (Stats.StatusCodeCounts s) = Stats.TotalRequests s.
Proof.
  destruct (histogram_tally 0 [ok200; err500; net_error; ok200])
    as (_ & Hsum & _ & Hall).
  - vm_compute. discriminate.
  - split; [exact Hsum | apply Hall; repeat constructor].
Defined.

(** C2, as stated, fails: one Result with status code 0 and no error is
    counted in [TotalRequests] and entered under no histogram key. *)
Lemma histogram_sum_counterexample :
  let s := fold_left AddResult [blank] (NewStats 0) in
  Stats.TotalRequests s = 1
  /\ hist_sum (Stats.StatusCodeCounts s) = 0
  /\ hist_sum (Stats.StatusCodeCounts s) <> Stats.TotalRequests s.
Proof.
  change (fold_left AddResult [blank] (NewStats 0))
    with (Stats.mk 1 1 0 ∅ [1000] 0 0).
  simpl. rewrite hist_sum_empty.
  split; [reflexivity | split; [reflexivity | discriminate]].
Qed.

(** ** The empty sample *)

(** C5. Finalizing a collector that received no Result and calling
    [GetSummary] returns the Summary whose counts and latency fields (min,
    avg, max, p90, p95, p99) are all zero; and [GetSummary] never ends in a
    run-time panic (its only division is by the length of a collection it has
    found non-empty). *)
Theorem GetSummary_no_results :
  (forall start fin,
     GetSummary (Finalize (NewStats start) fin) = Some zero_summary)
  /\ (forall s, GetSummary s <> None).
Proof.
  split.
  - intros start fin. reflexivity.
  - intros s. destruct (GetSummary_returns s) as (sm & -> & _). discriminate.
Qed.

(** ** The endpoint selector *)

Lemma index_nonneg {X} (l : list X) (i : Z) :
  0 <= i -> index l i = l !! Z.to_nat i.
Proof.
  intros H. unfold index. destruct (Z.ltb_spec i 0); [lia | reflexivity].
Qed.

Lemma Next_step (us : list string) (j : nat) :
  (2 <= length us)%nat -> Z.of_nat j + 1 <= max_int64 ->
  Next (Some (URLRotator.mk us (Z.of_nat j)))
  = (us !! (j mod length us)%nat, Some (URLRotator.mk us (Z.of_nat (S j)))).
Proof.
  intros HK Hj. unfold Next. cbn [URLRotator.urls URLRotator.idx].
  destruct us as [|a [|b t]]; [simpl in HK; lia | simpl in HK; lia |].
  set (us := a :: b :: t) in *.
  pose proof max_int64_pos.
  rewrite (add_exact (Z.of_nat j) 1) by (apply in_int64_small; lia).
  rewrite (add_exact (Z.of_nat j + 1) (-1)) by (apply in_int64_small; lia).
  replace (Z.of_nat j + 1 + -1) with (Z.of_nat j) by lia.
  assert (HKz : 0 < Z.of_nat (length us)) by lia.
  rewrite Z.rem_mod_nonneg by lia.
  rewrite index_nonneg by (apply Z.mod_pos_bound; lia).
  rewrite <- Nat2Z.inj_mod, Nat2Z.id.
  f_equal. f_equal. f_equal. lia.
Qed.

Lemma sequential_calls_many (us : list string) (n : nat) : forall j : nat,
  (2 <= length us)%nat -> Z.of_nat j + Z.of_nat n <= max_int64 ->
  sequential_calls n (Some (URLRotator.mk us (Z.of_nat j)))
  = map (fun k => us !! (k mod length us)%nat) (seq j n).
Proof.
  induction n as [|n IH]; intros j HK Hj; [reflexivity|].
  cbn [sequential_calls seq map].
  rewrite Next_step by lia. f_equal. apply IH; lia.
Qed.

Lemma sequential_calls_single (u : string) (i : Z) (n : nat) :
  sequential_calls n (Some (URLRotator.mk [u] i)) = repeat (Some u) n.
Proof. induction n as [|n IH]; [reflexivity|]. simpl. now rewrite IH. Qed.

Lemma map_const_seq {X} (x : X) (f : nat -> X) (n : nat) : forall j,
  (forall k, f k = x) -> map f (seq j n) = repeat x n.
Proof.
  induction n as [|n IH]; intros j Hf; [reflexivity|].
  simpl. rewrite Hf, (IH (S j) Hf). reflexivity.
Qed.

Lemma sequential_calls_rotation (urls : list string) (n : nat) :
  urls <> [] ->
  Z.of_nat n <= max_int64 \/ length urls = 1%nat ->
  sequential_calls n (NewURLRotator urls)
  = map (fun k => urls !! (k mod length urls)%nat) (seq 0 n).
Proof.
  intros Hne Hn.
  destruct urls as [|a [|b t]]; [congruence | |].
  - unfold NewURLRotator. rewrite sequential_calls_single.
    symmetry. apply map_const_seq. intros k. simpl length.
    rewrite Nat.mod_1_r. reflexivity.
  - destruct Hn as [Hn | Hn]; [|simpl in Hn; lia].
    unfold NewURLRotator.
    apply (sequential_calls_many (a :: b :: t) n 0); simpl length; lia.
Qed.

(** C6, as the code has it.  For a rotator built over a non-empty list of
    [K] URLs, the [k]-th of [n] sequential calls of [Next] (counting from 0,
    with [n <= max_int64], or any [n] when [K = 1]) returns the URL at
    position [k mod K]: round-robin from the first element, and always the
    one URL when [K = 1].  Every call returns an element of the list, so none
    returns the empty string when no listed URL is the empty string. *)
Theorem Next_round_robin (urls : list string) (n : nat) :
  urls <> [] ->
  Z.of_nat n <= max_int64 \/ length urls = 1%nat ->
  sequential_calls n (NewURLRotator urls)
  = map (fun k => urls !! (k mod length urls)%nat) (seq 0 n)
  /\ Forall (fun r => exists u, r = Some u /\ u ∈ urls)
            (sequential_calls n (NewURLRotator urls))
  /\ (Forall (fun u => u <> EmptyString) urls ->
      Forall (fun r => r <> Some EmptyString)
             (sequential_calls n (NewURLRotator urls))).
Proof.
  intros Hne Hn.
  pose proof (sequential_calls_rotation urls n Hne Hn) as Heq.
  assert (Hmem : Forall (fun r => exists u, r = Some u /\ u ∈ urls)
                        (sequential_calls n (NewURLRotator urls))).
  { rewrite Heq. apply Forall_forall. intros r Hr.
    apply list_elem_of_In in Hr. apply in_map_iff in Hr as (k & <- & _).
    assert (Hk : (k mod length urls < length urls)%nat).
    { apply Nat.mod_upper_bound. destruct urls; [congruence | simpl; lia]. }
    destruct (lookup_lt_is_Some_2 urls _ Hk) as [u Hu].
    exists u. split; [exact Hu | eapply list_elem_of_lookup_2; exact Hu]. }
  split; [exact Heq | split; [exact Hmem |]].
  intros Hall. eapply Forall_impl; [exact Hmem |].
  intros r (u & -> & Hu) [= ->].
  rewrite Forall_forall in Hall. exact (Hall _ Hu eq_refl).
Qed.

Lemma Next_round_robin_witness :
  sequential_calls 9 (NewURLRotator [A; B; C])
  = [Some A; Some B; Some C; Some A; Some B; Some C; Some A; Some B; Some C].
Proof.
  destruct (Next_round_robin [A; B; C] 9) as (Heq & _).
  - discriminate.
  - left. vm_compute. discriminate.
  - exact Heq.
Defined.

(** C6, as stated, fails in its last clause: over the non-empty list that
    holds the empty string, [Next] returns the empty string. *)
Lemma Next_empty_string_counterexample :
  [EmptyString] <> []
  /\ fst (Next (NewURLRotator [EmptyString])) = Some EmptyString.
Proof. split; [discriminate | reflexivity]. Qed.

(** ** The request executor *)

(** C9, as the code has it.  The Response of [Do] never pairs an error
    with a non-zero status: with a non-nil [Error] the [StatusCode] is 0, and
    with a nil [Error] the [StatusCode] is the status the transport received,
    handed over unchecked.  So the 0 status comes without an error exactly
    when the transport hands back status 0; when every status it hands back
    is positive, the status of the Response is 0 exactly when there is an
    error, and positive otherwise. *)
Theorem Do_status_and_error
    (NewRequestWithContext : httpclient.Request.t -> option string)
    (httpClient_Do : httpclient.Request.t -> string + Z)
    (since_build since_reply : Z) (req : httpclient.Request.t) :
  let resp :=
    httpclient.Do NewRequestWithContext httpClient_Do
                  since_build since_reply req in
  (httpclient.Response.Error resp <> None ->
   httpclient.Response.StatusCode resp = 0)
  /\ (httpclient.Response.StatusCode resp <> 0 ->
      httpclient.Response.Error resp = None)
  /\ (httpclient.Response.Error resp = None ->
      httpClient_Do req = inr (httpclient.Response.StatusCode resp))
  /\ (httpclient.Response.StatusCode resp = 0
      /\ httpclient.Response.Error resp = None <->
      NewRequestWithContext req = None /\ httpClient_Do req = inr 0)
  /\ ((forall status, httpClient_Do req = inr status -> 0 < status) ->
      (httpclient.Response.StatusCode resp = 0 <->
       httpclient.Response.Error resp <> None)
      /\ (httpclient.Response.Error resp = None ->
          0 < httpclient.Response.StatusCode resp)).
Proof.
  unfold httpclient.Do.
  destruct (NewRequestWithContext req) as [err|]; simpl.
  - repeat split; intros; destruct_and?; congruence.
  - destruct (httpClient_Do req) as [err|status] eqn:E; simpl.
    + repeat split; intros; destruct_and?; congruence.
    + repeat split; intros; destruct_and?; try congruence.
      * match goal with H : forall _, _ -> 0 < _ |- _ =>
          pose proof (H status eq_refl) end. lia.
      * match goal with H : forall _, _ -> 0 < _ |- _ =>
          exact (H status eq_refl) end.
Qed.

Lemma Do_status_and_error_witness :
  let req := httpclient.Request.mk "GET" A "" ∅ None in
  let resp := httpclient.Do (fun _ => None) (fun _ => inr 200) 10 20 req in
  httpclient.Response.Error resp = None
  /\ 0 < httpclient.Response.StatusCode resp.
Proof.
  intros req resp.
  destruct (Do_status_and_error (fun _ => None) (fun _ => inr 200) 10 20 req)
    as (_ & _ & _ & _ & Hpos).
  destruct Hpos as [_ Hnil].
  - intros status [= <-]. reflexivity.
  - split; [reflexivity | exact (Hnil eq_refl)].
Defined.

(** C9, as stated, fails: when the transport hands back a response with
    status 0 (the status line 000), [Do] returns status 0 with a nil error. *)
Lemma Do_zero_status_counterexample :
  let req := httpclient.Request.mk "GET" A "" ∅ None in
  let resp := httpclient.Do (fun _ => None) (fun _ => inr 0) 10 20 req in
  httpclient.Response.StatusCode resp = 0
  /\ httpclient.Response.Error resp = None
  /\ ~ 0 < httpclient.Response.StatusCode resp.
Proof. simpl. repeat split. lia. Qed.

(** ** The orchestrator *)

Lemma GetSummary_fresh start fin :
  GetSummary (Finalize (NewStats start) fin) = Some zero_summary.
Proof. reflexivity. Qed.




(** ** The worker's delivery step *)

(** With the context done and room in an open channel, the final [select]
    stops the worker or delivers the Result, as the run-time picks. *)
Lemma deliver_when_done (pick : nat) (ch : Chan.t) (result : Result.t) :
  Chan.closed ch = false -> (length (Chan.buf ch) < Chan.cap ch)%nat ->
  deliver pick true ch result
  = if Nat.even pick then Exit
    else Delivered (Chan.mk (Chan.buf ch ++ [result]) (Chan.cap ch) false).
Proof.
  intros Hopen Hroom. unfold deliver, ready_cases, send_ready.
  rewrite Hopen. apply Nat.ltb_lt in Hroom. rewrite Hroom.
  cbn [orb app length].
  destruct (Nat.even pick) eqn:E.
  - apply Nat.even_spec in E as [k ->].
    replace ((2 * k) mod 2)%nat with 0%nat
      by (symmetry; rewrite Nat.mul_comm; apply Nat.Div0.mod_mul).
    reflexivity.
  - assert (Hodd : Nat.odd pick = true) by (rewrite <- Nat.negb_even, E; reflexivity).
    apply Nat.odd_spec in Hodd as [k ->].
    replace ((2 * k + 1) mod 2)%nat with 1%nat.
    + reflexivity.
    + rewrite Nat.add_comm, Nat.mul_comm, Nat.Div0.mod_add. reflexivity.
Qed.

(** C8 fails on the code.  The deadline fires while the request is in
    flight; at the final [select] of the loop body the context is done and
    the channel has room, so both communications can proceed, and when the
    run-time picks the send, the Result of the abandoned call is put on the
    results channel and the loop goes on. *)
Theorem Start_delivers_after_cancellation :
  ready_cases true (Worker.results fresh_worker) = [CaseCtxDone; CaseSend]
  /\ deliver 1 true (Worker.results fresh_worker) abandoned
     = Delivered (Chan.mk [abandoned] 10 false)
  /\ Chan.buf (Worker.results (fst (Start fresh_worker [cancelled_mid_request])))
     = [abandoned].
Proof. repeat split. Qed.

(** ** Percentiles *)

Lemma Qtrunc_comp (x y : Q) : (x == y)%Q -> Qtrunc x = Qtrunc y.
Proof.
  destruct x as [a b], y as [c d]. unfold Qeq, Qtrunc. simpl. intros H.
  rewrite <- (Z.quot_mul_cancel_r a (Zpos b) (Zpos d)) by lia.
  rewrite H.
  rewrite (Z.mul_comm (Zpos b) (Zpos d)).
  apply Z.quot_mul_cancel_r; lia.
Qed.

Lemma index_floor (p m : Z) :
  Qfloor (inject_Z p / 100 * inject_Z m)%Q = (p * m) / 100.
Proof.
  unfold Qfloor, Qdiv, Qmult, Qinv, inject_Z. simpl.
  f_equal. lia.
Qed.

Lemma blend_exact (p m lo hi : Z) :
  let index := (inject_Z p / 100 * inject_Z m)%Q in
  let weight := (index - inject_Z ((p * m) / 100))%Q in
  ((1 - weight) * inject_Z lo + weight * inject_Z hi
   == (lo * (100 - (p * m) mod 100) + hi * ((p * m) mod 100)) # 100)%Q.
Proof.
  intros index weight. subst index weight.
  rewrite Z.mod_eq by lia.
  generalize ((p * m) / 100). intros k.
  unfold Qeq, Qminus, Qplus, Qopp, Qdiv, Qmult, Qinv, inject_Z. simpl.
  lia.
Qed.

Lemma Percentile_reference (l : list Z) (p : Z) :
  l <> [] ->
  Percentile l (inject_Z p) = percentile_reference (merge_sort Z.le l) p.
Proof.
  intros Hl. unfold Percentile, percentile_reference.
  destruct l as [|a l']; [congruence|].
  cbv zeta. rewrite index_floor.
  set (sorted := merge_sort Z.le (a :: l')).
  set (m := Z.of_nat (length sorted) - 1).
  change (Z.quot ?x 100) with (Qtrunc (x # 100)).
  apply Qtrunc_comp. apply blend_exact.
Qed.

Lemma sorted_nth (s : list Z) :
  StronglySorted Z.le s ->
  forall i j, (i <= j < length s)%nat -> nth i s 0 <= nth j s 0.
Proof.
  induction 1 as [|x s Hs IH Hx]; intros i j Hij; simpl in Hij; [lia|].
  destruct j as [|j]; [replace i with 0%nat by lia; simpl; lia|].
  destruct i as [|i]; simpl.
  - rewrite Forall_forall in Hx. apply Hx.
    apply list_elem_of_In. apply nth_In. lia.
  - apply IH. lia.
Qed.

Lemma blend_mono (s : list Z) (k f k' f' : Z) :
  StronglySorted Z.le s ->
  0 <= k -> 0 <= f < 100 -> 0 <= f' < 100 ->
  100 * k + f <= 100 * k' + f' <= 100 * (Z.of_nat (length s) - 1) ->
  nth (Z.to_nat k) s 0 * (100 - f) + nth (Z.to_nat (k + 1)) s 0 * f
  <= nth (Z.to_nat k') s 0 * (100 - f') + nth (Z.to_nat (k' + 1)) s 0 * f'.
Proof.
  intros Hs Hk Hf Hf' Hle.
  pose proof (sorted_nth s Hs) as Hnth.
  assert (Hup : forall j g, 0 <= j -> 0 < g < 100 ->
            100 * j + g <= 100 * (Z.of_nat (length s) - 1) ->
            nth (Z.to_nat j) s 0 <= nth (Z.to_nat (j + 1)) s 0).
  { intros j g Hj Hg Hjg. apply Hnth. lia. }
  destruct (Z.eq_dec k k') as [<-|Hne].
  - destruct (Z.eq_dec f' 0) as [->|Hf0].
    + replace f with 0 by lia. lia.
    + pose proof (Hup k f' Hk ltac:(lia) ltac:(lia)). nia.
  - assert (Hkk : k + 1 <= k') by lia.
    assert (H1 : nth (Z.to_nat k) s 0 <= nth (Z.to_nat (k + 1)) s 0).
    { apply Hnth. lia. }
    assert (H2 : nth (Z.to_nat (k + 1)) s 0 <= nth (Z.to_nat k') s 0).
    { apply Hnth. lia. }
    destruct (Z.eq_dec f' 0) as [->|Hf0]; [nia|].
    pose proof (Hup k' f' ltac:(lia) ltac:(lia) ltac:(lia)). nia.
Qed.

Lemma percentile_reference_mono (s : list Z) (p p' : Z) :
  StronglySorted Z.le s -> s <> [] -> 0 <= p <= p' -> p' <= 100 ->
  percentile_reference s p <= percentile_reference s p'.
Proof.
  intros Hs Hne Hp Hp'. unfold percentile_reference.
  assert (Hn : 0 <= Z.of_nat (length s) - 1).
  { destruct s; [congruence | simpl length; lia]. }
  set (m := Z.of_nat (length s) - 1) in *.
  apply Z.quot_le_mono; [lia|].
  pose proof (Z.div_mod (p * m) 100 ltac:(lia)).
  pose proof (Z.div_mod (p' * m) 100 ltac:(lia)).
  pose proof (Z.mod_pos_bound (p * m) 100 ltac:(lia)).
  pose proof (Z.mod_pos_bound (p' * m) 100 ltac:(lia)).
  apply blend_mono; try assumption.
  - apply Z.div_pos; nia.
  - fold m. nia.
Qed.

Lemma percentile_reference_le_max (s : list Z) (p mx : Z) :
  s <> [] -> 0 <= p <= 100 -> Forall (fun x => x <= mx) s ->
  percentile_reference s p <= mx.
Proof.
  intros Hne Hp Hall. unfold percentile_reference.
  assert (Hn : 0 <= Z.of_nat (length s) - 1).
  { destruct s; [congruence | simpl length; lia]. }
  set (m := Z.of_nat (length s) - 1) in *.
  transitivity (Z.quot (mx * 100) 100); [|rewrite Z.quot_mul; lia].
  apply Z.quot_le_mono; [lia|].
  pose proof (Z.div_mod (p * m) 100 ltac:(lia)).
  pose proof (Z.mod_pos_bound (p * m) 100 ltac:(lia)).
  assert (0 <= p * m / 100) by (apply Z.div_pos; nia).
  assert (Hel : forall i, (i < length s)%nat -> nth i s 0 <= mx).
  { intros i Hi. rewrite Forall_forall in Hall. apply Hall.
    apply list_elem_of_In. apply nth_In. exact Hi. }
  assert (Hlo : nth (Z.to_nat (p * m / 100)) s 0 <= mx) by (apply Hel; nia).
  destruct (Z.eq_dec ((p * m) mod 100) 0) as [->|Hf0]; [lia|].
  assert (Hhi : nth (Z.to_nat (p * m / 100 + 1)) s 0 <= mx) by (apply Hel; nia).
  nia.
Qed.

(** ** The scan of [GetSummary] *)

(** What the loop leaves in [(min, max, sum)]: bounds of the scanned values
    that are attained (by a scanned value or by the initial one), and the
    exact sum wrapped once. *)
Lemma scan_fold (l : list Z) : forall mn mx sm,
  exists mn' mx',
    fold_left scan_step l (mn, mx, wrap64 sm)
    = (mn', mx', wrap64 (sm + list_sum l))
    /\ mn' <= mn /\ mx <= mx'
    /\ Forall (fun x => mn' <= x) l /\ Forall (fun x => x <= mx') l
    /\ (mn' = mn \/ In mn' l) /\ (mx' = mx \/ In mx' l).
Proof.
  induction l as [|x l IH]; intros mn mx sm.
  - exists mn, mx. simpl. rewrite Z.add_0_r.
    repeat split; auto; lia.
  - simpl fold_left. unfold add. rewrite wrap64_add_l.
    destruct (IH (if x <? mn then x else mn) (if mx <? x then x else mx)
                 (sm + x)) as (mn' & mx' & Heq & Hmn & Hmx & Hlo & Hhi & Imn & Imx).
    exists mn', mx'. rewrite Heq. simpl list_sum.
    destruct (Z.ltb_spec x mn), (Z.ltb_spec mx x);
      (split; [do 2 f_equal; lia|]);
      (repeat split; try lia; try (constructor; [lia | assumption]));
      simpl; intuition (subst; auto).
Qed.

Lemma list_sum_bounds (l : list Z) (mn mx : Z) :
  Forall (fun x => mn <= x) l -> Forall (fun x => x <= mx) l ->
  mn * Z.of_nat (length l) <= list_sum l <= mx * Z.of_nat (length l).
Proof.
  induction l as [|x l IH]; intros Hlo Hhi; [simpl; lia|].
  inversion Hlo; inversion Hhi; subst.
  change (length (x :: l)) with (S (length l)). rewrite Nat2Z.inj_succ.
  simpl list_sum. specialize (IH ltac:(assumption) ltac:(assumption)). nia.
Qed.

Lemma quot_between (S n mn mx : Z) :
  0 < n -> mn * n <= S <= mx * n -> mn <= Z.quot S n <= mx.
Proof.
  intros Hn HS.
  pose proof (Z.quot_rem' S n) as Hqr.
  pose proof (Z.rem_bound_abs S n ltac:(lia)) as Hr.
  nia.
Qed.

Lemma quot_in_int64 (S n : Z) :
  0 < n -> in_int64 S -> in_int64 (Z.quot S n).
Proof.
  unfold in_int64, min_int64, max_int64. intros Hn HS.
  pose proof (Z.quot_rem' S n) as Hqr.
  pose proof (Z.rem_bound_abs S n ltac:(lia)) as Hr.
  assert (Hsgn : 0 <= S -> 0 <= Z.quot S n) by (intros; apply Z.quot_pos; lia).
  assert (Hsgn' : S <= 0 -> Z.quot S n <= 0).
  { intros. rewrite <- (Z.opp_involutive S), Z.quot_opp_l by lia.
    pose proof (Z.quot_pos (- S) n ltac:(lia) ltac:(lia)). lia. }
  nia.
Qed.

(** The Summary of a non-empty collection, field by field. *)
Lemma GetSummary_nonempty (s : Stats.t) :
  Stats.Latencies s <> [] ->
  let l := Stats.Latencies s in
  exists sm mn mx,
    GetSummary s = Some sm
    /\ Summary.MinLatency sm = mn /\ Summary.MaxLatency sm = mx
    /\ Summary.AvgLatency sm
       = wrap64 (Z.quot (wrap64 (list_sum l)) (Z.of_nat (length l)))
    /\ Summary.P90Latency sm = Percentile l (inject_Z 90)
    /\ Summary.P95Latency sm = Percentile l (inject_Z 95)
    /\ Summary.P99Latency sm = Percentile l (inject_Z 99)
    /\ Forall (fun x => mn <= x) l /\ Forall (fun x => x <= mx) l
    /\ In mn l /\ In mx l.
Proof.
  intros Hne. cbv zeta. unfold GetSummary.
  destruct (Stats.Latencies s) as [|first rest]; [congruence|].
  change (first, first, 0) with (first, first, wrap64 0).
  destruct (scan_fold (first :: rest) first first 0)
    as (mn & mx & -> & _ & _ & Hlo & Hhi & Imn & Imx).
  unfold div.
  destruct (Z.eqb_spec (Z.of_nat (length (first :: rest))) 0) as [E0|_];
    [simpl in E0; lia|].
  eexists _, mn, mx. split; [reflexivity|]. cbn [Summary.MinLatency
    Summary.MaxLatency Summary.AvgLatency Summary.P90Latency
    Summary.P95Latency Summary.P99Latency].
  rewrite Z.add_0_l.
  repeat split; try assumption.
  - destruct Imn as [->|H]; [left; reflexivity | exact H].
  - destruct Imx as [->|H]; [left; reflexivity | exact H].
Qed.

(** C3. For every non-empty latency collection, [GetSummary] returns, and
    its p90, p95 and p99 are the linear-interpolation percentiles of the
    sorted collection: with [sorted] the collection in ascending order, the
    percentile-[p] value sits at index [p/100 * (n-1)], whose whole part
    selects the two bracketing samples and whose fractional part blends them
    linearly.  The [Percentile] called at the three sites equals that
    reference for every percentage. *)
Theorem GetSummary_percentiles (s : Stats.t) :
  Stats.Latencies s <> [] ->
  exists sm sorted,
    GetSummary s = Some sm
    /\ Sorted Z.le sorted /\ sorted ≡ₚ Stats.Latencies s
    /\ Summary.P90Latency sm = percentile_reference sorted 90
    /\ Summary.P95Latency sm = percentile_reference sorted 95
    /\ Summary.P99Latency sm = percentile_reference sorted 99
    /\ (forall p : Z,
        Percentile (Stats.Latencies s) (inject_Z p)
        = percentile_reference sorted p).
Proof.
  intros Hne.
  destruct (GetSummary_nonempty s Hne)
    as (sm & mn & mx & Heq & _ & _ & _ & H90 & H95 & H99 & _).
  exists sm, (merge_sort Z.le (Stats.Latencies s)).
  split; [exact Heq|].
  split; [apply (Sorted_merge_sort Z.le)|].
  split; [apply merge_sort_Permutation|].
  rewrite H90, H95, H99, !Percentile_reference by exact Hne.
  repeat split. intros p. apply Percentile_reference. exact Hne.
Qed.

Lemma GetSummary_percentiles_witness :
  exists sm,
    GetSummary (collector_of [40; 10; 30; 20]) = Some sm
    /\ Summary.P90Latency sm = 37.
Proof.
  destruct (GetSummary_percentiles (collector_of [40; 10; 30; 20]))
    as (sm & sorted & Heq & _ & _ & H90 & _).
  - vm_compute. discriminate.
  - exists sm. split; [exact Heq|].
    vm_compute in Heq. injection Heq as <-. reflexivity.
Defined.

(** The scenario of the spec: 1000 Results with latencies spread evenly from
    1ms to 100ms; p99 falls within [98ms, 100ms]. *)
Example p99_of_uniform_latencies :
  match GetSummary (collector_of uniform_1ms_100ms) with
  | Some sm => 98000000 <= Summary.P99Latency sm <= 100000000
  | None => False
  end.
Proof. vm_compute. split; discriminate. Qed.

Lemma Forall_Permutation_le (l l' : list Z) (mx : Z) :
  l' ≡ₚ l -> Forall (fun x => x <= mx) l -> Forall (fun x => x <= mx) l'.
Proof. intros Hp Hl. rewrite Hp. exact Hl. Qed.

(** C4, as the code has it.  For every non-empty latency collection,
    [GetSummary] returns a Summary with [p90 <= p95 <= p99 <= max] and
    [min <= max]; and when the sum of the latencies is within the [int64]
    range, [avg] is that sum divided by their count and [min <= avg <= max]. *)
Theorem GetSummary_latency_order (s : Stats.t) :
  Stats.Latencies s <> [] ->
  exists sm,
    GetSummary s = Some sm
    /\ Summary.P90Latency sm <= Summary.P95Latency sm
    /\ Summary.P95Latency sm <= Summary.P99Latency sm
    /\ Summary.P99Latency sm <= Summary.MaxLatency sm
    /\ Summary.MinLatency sm <= Summary.MaxLatency sm
    /\ (in_int64 (list_sum (Stats.Latencies s)) ->
        Summary.AvgLatency sm
        = Z.quot (list_sum (Stats.Latencies s))
                 (Z.of_nat (length (Stats.Latencies s)))
        /\ Summary.MinLatency sm <= Summary.AvgLatency sm
        /\ Summary.AvgLatency sm <= Summary.MaxLatency sm).
Proof.
  intros Hne.
  destruct (GetSummary_nonempty s Hne)
    as (sm & mn & mx & Heq & Hmn & Hmx & Havg & H90 & H95 & H99
        & Hlo & Hhi & Imn & Imx).
  exists sm. split; [exact Heq|].
  set (l := Stats.Latencies s) in *.
  set (sorted := merge_sort Z.le l).
  assert (Hsorted : StronglySorted Z.le sorted)
    by apply (StronglySorted_merge_sort Z.le).
  assert (Hperm : sorted ≡ₚ l) by apply merge_sort_Permutation.
  assert (Hsne : sorted <> []).
  { intros E. rewrite E in Hperm.
    apply Permutation_nil in Hperm. congruence. }
  rewrite H90, H95, H99, Hmn, Hmx, !Percentile_reference by exact Hne.
  fold sorted.
  split; [apply percentile_reference_mono; (assumption || lia)|].
  split; [apply percentile_reference_mono; (assumption || lia)|].
  split.
  { apply percentile_reference_le_max; [assumption | lia |].
    apply (Forall_Permutation_le l); assumption. }
  split.
  { rewrite Forall_forall in Hlo. apply Hlo. apply list_elem_of_In. exact Imx. }
  intros Hsum.
  assert (Hn : 0 < Z.of_nat (length l)).
  { destruct l; [congruence | simpl length; lia]. }
  rewrite Havg, (wrap64_id (list_sum l)) by exact Hsum.
  rewrite wrap64_id by (apply quot_in_int64; assumption).
  split; [reflexivity|].
  apply quot_between; [exact Hn|].
  apply list_sum_bounds; assumption.
Qed.

Lemma GetSummary_latency_order_witness :
  exists sm,
    GetSummary (collector_of [40; 10; 30; 20]) = Some sm
    /\ Summary.P90Latency sm <= Summary.P95Latency sm
    /\ Summary.P95Latency sm <= Summary.P99Latency sm
    /\ Summary.P99Latency sm <= Summary.MaxLatency sm
    /\ Summary.MinLatency sm <= Summary.AvgLatency sm
    /\ Summary.AvgLatency sm <= Summary.MaxLatency sm.
Proof.
  destruct (GetSummary_latency_order (collector_of [40; 10; 30; 20]))
    as (sm & Heq & H1 & H2 & H3 & _ & Havg).
  - vm_compute. discriminate.
  - destruct Havg as (_ & H4 & H5).
    + vm_compute. split; discriminate.
    + exists sm. repeat split; assumption.
Defined.

(** C4, as stated, fails: for two latencies of 2^62 ns the sum wraps around
    to -2^63, and the average -2^62 is below the minimum 2^62. *)
Lemma avg_below_min_counterexample :
  Stats.Latencies (collector_of two_huge) = [2 ^ 62; 2 ^ 62]
  /\ match GetSummary (collector_of two_huge) with
     | Some sm =>
       Summary.MinLatency sm = 2 ^ 62
       /\ Summary.AvgLatency sm = - 2 ^ 62
       /\ Summary.AvgLatency sm < Summary.MinLatency sm
     | None => False
     end.
Proof. vm_compute. repeat split. Qed.

(** * Further properties of the collector *)

Lemma count_where_cons {X} (f : X -> bool) (x : X) (l : list X) :
  count_where f (x :: l) = (if f x then 1 else 0) + count_where f l.
Proof.
  unfold count_where. simpl. destruct (f x); [|lia].
  change (length (x :: List.filter f l)) with (S (length (List.filter f l))).
  lia.
Qed.

Lemma count_where_bounds {X} (f : X -> bool) (l : list X) :
  0 <= count_where f l <= Z.of_nat (length l).
Proof.
  unfold count_where. pose proof (filter_length_le f l). lia.
Qed.

Lemma count_where_split {X} (f : X -> bool) (l : list X) :
  count_where f l + count_where (fun x => negb (f x)) l = Z.of_nat (length l).
Proof.
  induction l as [|x l IH]; [reflexivity|].
  rewrite !count_where_cons. change (length (x :: l)) with (S (length l)).
  destruct (f x); simpl; lia.
Qed.

Lemma classified_fold (rs : list Result.t) : forall s,
  0 <= Stats.SuccessRequests s -> 0 <= Stats.FailedRequests s ->
  Stats.SuccessRequests s + Stats.FailedRequests s + Z.of_nat (length rs)
  <= max_int64 ->
  Stats.FailedRequests (fold_left AddResult rs s)
  = Stats.FailedRequests s + count_where failing rs
  /\ Stats.SuccessRequests (fold_left AddResult rs s)
     = Stats.SuccessRequests s + count_where (fun r => negb (failing r)) rs.
Proof.
  induction rs as [|r rs IH]; intros s Hs Hf Hmax.
  - unfold count_where. simpl. lia.
  - change (length (r :: rs)) with (S (length rs)) in Hmax.
    simpl fold_left. rewrite !count_where_cons.
    pose proof max_int64_pos.
    assert (Hstep :
      Stats.FailedRequests (AddResult s r)
      = Stats.FailedRequests s + (if failing r then 1 else 0)
      /\ Stats.SuccessRequests (AddResult s r)
         = Stats.SuccessRequests s + (if negb (failing r) then 1 else 0)).
    { unfold AddResult, failing.
      destruct (is_err (Result.Error r) || (400 <=? Result.StatusCode r));
        simpl; rewrite ?add_exact by (apply in_int64_small; lia); lia. }
    destruct Hstep as [Ef Es].
    destruct (IH (AddResult s r)) as [IHf IHs].
    + rewrite Es. destruct (negb (failing r)); lia.
    + rewrite Ef. destruct (failing r); lia.
    + rewrite Es, Ef. destruct (failing r); simpl; lia.
    + rewrite IHf, IHs, Ef, Es. lia.
Qed.

(** X1. After any sequence of at most [max_int64] calls of [AddResult] on a
    fresh collector, [FailedRequests] is the number of added Results that
    carry an error or a status of 400 or more, and [SuccessRequests] is the
    number of the others. *)
Theorem AddResult_classifies (now : Z) (rs : list Result.t) :
  Z.of_nat (length rs) <= max_int64 ->
  let s := fold_left AddResult rs (NewStats now) in
  Stats.FailedRequests s = count_where failing rs
  /\ Stats.SuccessRequests s = count_where (fun r => negb (failing r)) rs.
Proof.
  intros Hlen s.
  destruct (classified_fold rs (NewStats now)) as [Hf Hs];
    simpl; try lia.
  subst s. rewrite Hf, Hs. simpl. lia.
Qed.

Lemma AddResult_classifies_witness :
  let s := fold_left AddResult [ok200; err500; net_error; ok200] (NewStats 0) in
  Stats.FailedRequests s = 2 /\ Stats.SuccessRequests s = 2.
Proof.
  destruct (AddResult_classifies 0 [ok200; err500; net_error; ok200])
    as [Hf Hs].
  - vm_compute. discriminate.
  - split; [exact Hf | exact Hs].
Defined.

Lemma Latencies_fold (rs : list Result.t) : forall s,
  Stats.Latencies (fold_left AddResult rs s)
  = Stats.Latencies s ++ map Result.Latency rs.
Proof.
  induction rs as [|r rs IH]; intros s; simpl.
  - now rewrite app_nil_r.
  - rewrite IH. simpl. now rewrite <- app_assoc.
Qed.

(** X2. The collector keeps the latencies of the added Results in the order
    of the calls, one per call, whatever the Results are; [StartTime] and
    [EndTime] are not touched by [AddResult]. *)
Theorem AddResult_keeps_latencies (now : Z) (rs : list Result.t) :
  let s := fold_left AddResult rs (NewStats now) in
  Stats.Latencies s = map Result.Latency rs
  /\ Stats.StartTime s = now /\ Stats.EndTime s = 0.
Proof.
  intros s. subst s. split; [apply Latencies_fold|].
  induction rs as [|r rs IH] using rev_ind; [split; reflexivity|].
  rewrite fold_left_app. simpl. exact IH.
Qed.

Lemma keyed_AddResult (s : Stats.t) (c : Z) (r : Result.t) (k : Z) :
  tallied s c -> c + 1 <= max_int64 ->
  default 0 (Stats.StatusCodeCounts (AddResult s r) !! k)
  = default 0 (Stats.StatusCodeCounts s !! k) + (if keyed k r then 1 else 0).
Proof.
  intros [_ Hv] Hmax.
  assert (Hincr : forall j,
    default 0 (map_incr (Stats.StatusCodeCounts s) j !! k)
    = default 0 (Stats.StatusCodeCounts s !! k) + (if j =? k then 1 else 0)).
  { intros j. unfold map_incr. rewrite lookup_insert.
    destruct (Z.eqb_spec j k) as [->|Hne]; case_decide; try congruence.
    - simpl. apply add_exact.
      destruct (Stats.StatusCodeCounts s !! k) as [v|] eqn:E; simpl.
      + specialize (Hv k v E). apply in_int64_small. lia.
      + apply in_int64_small. pose proof max_int64_pos. lia.
    - lia. }
  unfold AddResult, keyed, hist_key. cbn [Stats.StatusCodeCounts].
  destruct (is_err (Result.Error r) && (Result.StatusCode r =? 0));
    [apply Hincr|].
  destruct (0 <? Result.StatusCode r); [apply Hincr | lia].
Qed.

Lemma keyed_fold (rs : list Result.t) (k : Z) : forall s c,
  tallied s c -> 0 <= c -> c + Z.of_nat (length rs) <= max_int64 ->
  default 0 (Stats.StatusCodeCounts (fold_left AddResult rs s) !! k)
  = default 0 (Stats.StatusCodeCounts s !! k) + count_where (keyed k) rs.
Proof.
  induction rs as [|r rs IH]; intros s c Ht Hc Hmax.
  - unfold count_where. simpl. lia.
  - change (length (r :: rs)) with (S (length rs)) in Hmax.
    simpl fold_left. rewrite count_where_cons.
    pose proof (tallied_AddResult s c r Ht Hc ltac:(lia)) as Ht'.
    rewrite (IH _ _ Ht') by (destruct (recorded r); lia).
    rewrite (keyed_AddResult s c r k Ht) by lia. lia.
Qed.

Lemma keyed_nonneg (k : Z) (r : Result.t) : keyed k r = true -> 0 <= k.
Proof.
  unfold keyed, hist_key.
  destruct (is_err (Result.Error r) && (Result.StatusCode r =? 0)).
  - intros He. apply Z.eqb_eq in He. lia.
  - destruct (Z.ltb_spec 0 (Result.StatusCode r)); [|discriminate].
    intros He. apply Z.eqb_eq in He. lia.
Qed.

Lemma count_where_none {X} (f : X -> bool) (l : list X) :
  (forall x, f x = false) -> count_where f l = 0.
Proof.
  intros Hf. induction l as [|x l IH]; [reflexivity|].
  rewrite count_where_cons, Hf, IH. reflexivity.
Qed.

(** X3. After any sequence of at most [max_int64] calls of [AddResult] on a
    fresh collector, the histogram holds, for each key, exactly the number of
    added Results entered under that key (key 0 for an error without status,
    the status itself when positive), and no entry at all for a key that no
    Result was entered under; in particular it never has a negative key. *)
Theorem histogram_per_key (now : Z) (rs : list Result.t) (k : Z) :
  Z.of_nat (length rs) <= max_int64 ->
  let s := fold_left AddResult rs (NewStats now) in
  Stats.StatusCodeCounts s !! k
  = (if count_where (keyed k) rs =? 0 then None
     else Some (count_where (keyed k) rs))
  /\ (k < 0 -> Stats.StatusCodeCounts s !! k = None).
Proof.
  intros Hlen s.
  pose proof (keyed_fold rs k (NewStats now) 0 (tallied_NewStats now)
                ltac:(lia) ltac:(lia)) as Hk.
  pose proof (tallied_fold rs (NewStats now) 0 (tallied_NewStats now)
                ltac:(lia) ltac:(lia)) as [_ Hval].
  fold s in Hk, Hval. simpl in Hk. rewrite lookup_empty in Hk. simpl in Hk.
  assert (Hmain : Stats.StatusCodeCounts s !! k
    = (if count_where (keyed k) rs =? 0 then None
       else Some (count_where (keyed k) rs))).
  { destruct (Stats.StatusCodeCounts s !! k) as [v|] eqn:E; simpl in Hk.
    - specialize (Hval k v E).
      destruct (Z.eqb_spec (count_where (keyed k) rs) 0); [lia|].
      f_equal. lia.
    - destruct (Z.eqb_spec (count_where (keyed k) rs) 0); [reflexivity | lia]. }
  split; [exact Hmain|].
  intros Hneg. rewrite Hmain, count_where_none; [reflexivity|].
  intros r. destruct (keyed k r) eqn:E; [|reflexivity].
  apply keyed_nonneg in E. lia.
Qed.

Lemma histogram_per_key_witness :
  let s := fold_left AddResult [ok200; err500; net_error; ok200] (NewStats 0) in
  Stats.StatusCodeCounts s !! 200 = Some 2
  /\ Stats.StatusCodeCounts s !! 0 = Some 1
  /\ Stats.StatusCodeCounts s !! 404 = None.
Proof.
  assert (Hlen : Z.of_nat (length [ok200; err500; net_error; ok200])
                 <= max_int64) by (vm_compute; discriminate).
  split; [|split].
  - exact (proj1 (histogram_per_key 0 _ 200 Hlen)).
  - exact (proj1 (histogram_per_key 0 _ 0 Hlen)).
  - exact (proj1 (histogram_per_key 0 _ 404 Hlen)).
Defined.

(** X4. [Finalize] only sets [EndTime], and a later call overrides an
    earlier one.  The Summary of a collector after [Finalize] has the same
    counts, histogram, min, avg, max and percentiles as before it; with at
    least one latency its [Duration] is the time from [StartTime] to the
    finalizing instant, saturated to the [int64] range. *)
Theorem Finalize_summary (s : Stats.t) (fin fin' : Z) :
  Finalize (Finalize s fin) fin' = Finalize s fin'
  /\ exists sm sm',
       GetSummary s = Some sm /\ GetSummary (Finalize s fin) = Some sm'
       /\ Summary.TotalRequests sm' = Summary.TotalRequests sm
       /\ Summary.SuccessRequests sm' = Summary.SuccessRequests sm
       /\ Summary.FailedRequests sm' = Summary.FailedRequests sm
       /\ Summary.StatusCodeCounts sm' = Summary.StatusCodeCounts sm
       /\ Summary.MinLatency sm' = Summary.MinLatency sm
       /\ Summary.AvgLatency sm' = Summary.AvgLatency sm
       /\ Summary.MaxLatency sm' = Summary.MaxLatency sm
       /\ Summary.P90Latency sm' = Summary.P90Latency sm
       /\ Summary.P95Latency sm' = Summary.P95Latency sm
       /\ Summary.P99Latency sm' = Summary.P99Latency sm
       /\ (Stats.Latencies s <> [] ->
           Summary.Duration sm' = time_Sub fin (Stats.StartTime s)).
Proof.
  split; [reflexivity|].
  unfold GetSummary, Finalize. cbn [Stats.Latencies Stats.TotalRequests
    Stats.SuccessRequests Stats.FailedRequests Stats.StatusCodeCounts
    Stats.StartTime Stats.EndTime].
  destruct (Stats.Latencies s) as [|first rest].
  - do 2 eexists. repeat split; congruence.
  - destruct (fold_left scan_step (first :: rest) (first, first, 0))
      as [[mn mx] sum].
    destruct (div sum (Z.of_nat (length (first :: rest)))) as [avg|] eqn:E.
    + do 2 eexists. repeat split.
    + unfold div in E.
      destruct (Z.eqb_spec (Z.of_nat (length (first :: rest))) 0) as [E0|_];
        [simpl in E0; lia | discriminate].
Qed.

Lemma Finalize_summary_witness :
  exists sm',
    GetSummary (Finalize (collector_of [40; 10; 30; 20]) 5) = Some sm'
    /\ Summary.Duration sm' = 5.
Proof.
  destruct (Finalize_summary (collector_of [40; 10; 30; 20]) 5 9)
    as (_ & sm & sm' & _ & Heq & _ & _ & _ & _ & _ & _ & _ & _ & _ & _ & Hd).
  exists sm'. split; [exact Heq|].
  rewrite Hd; [reflexivity | vm_compute; discriminate].
Defined.

Lemma time_Sub_range (t u : Z) : in_int64 (time_Sub t u).
Proof. unfold time_Sub, in_int64, min_int64, max_int64. lia. Qed.

(** X5. The [Duration] of a Summary is always within the [int64] range, and
    the requests-per-second figure is guarded: when [EndTime] is not after
    [StartTime] (a collector that was never finalized, or a clock that did not
    advance), [RPS] is 0 and [Duration] is not positive; nothing is divided
    by a zero duration. *)
Theorem GetSummary_rps_guard (s : Stats.t) :
  exists sm,
    GetSummary s = Some sm
    /\ in_int64 (Summary.Duration sm)
    /\ (Stats.EndTime s <= Stats.StartTime s ->
        Summary.RPS sm = 0%float /\ Summary.Duration sm <= 0).
Proof.
  unfold GetSummary.
  destruct (Stats.Latencies s) as [|first rest].
  - eexists. split; [reflexivity|]. simpl.
    split; [apply in_int64_small; pose proof max_int64_pos; lia|].
    intros _. split; [reflexivity | lia].
  - destruct (fold_left scan_step (first :: rest) (first, first, 0))
      as [[mn mx] sum].
    unfold div.
    destruct (Z.eqb_spec (Z.of_nat (length (first :: rest))) 0) as [E0|_];
      [simpl in E0; lia|].
    eexists. split; [reflexivity|]. cbn [Summary.Duration Summary.RPS].
    split; [apply time_Sub_range|].
    intros Hle.
    assert (Hd : time_Sub (Stats.EndTime s) (Stats.StartTime s) <= 0).
    { unfold time_Sub, min_int64, max_int64. lia. }
    split; [|exact Hd].
    destruct (Z.ltb_spec 0 (time_Sub (Stats.EndTime s) (Stats.StartTime s)));
      [lia | reflexivity].
Qed.

Lemma GetSummary_rps_guard_witness :
  exists sm,
    GetSummary (collector_of [40; 10; 30; 20]) = Some sm
    /\ Summary.RPS sm = 0%float.
Proof.
  destruct (GetSummary_rps_guard (collector_of [40; 10; 30; 20]))
    as (sm & Heq & _ & Hguard).
  exists sm. split; [exact Heq|].
  apply Hguard. vm_compute. discriminate.
Defined.

(** X6. For a non-empty collection, [MinLatency] and [MaxLatency] of the
    Summary are latencies of the collection, and every latency of the
    collection lies between them. *)
Theorem GetSummary_min_max_attained (s : Stats.t) :
  Stats.Latencies s <> [] ->
  exists sm,
    GetSummary s = Some sm
    /\ In (Summary.MinLatency sm) (Stats.Latencies s)
    /\ In (Summary.MaxLatency sm) (Stats.Latencies s)
    /\ (forall x, In x (Stats.Latencies s) ->
        Summary.MinLatency sm <= x <= Summary.MaxLatency sm).
Proof.
  intros Hne.
  destruct (GetSummary_nonempty s Hne)
    as (sm & mn & mx & Heq & Hmn & Hmx & _ & _ & _ & _ & Hlo & Hhi & Imn & Imx).
  exists sm. rewrite Hmn, Hmx. repeat split; try assumption.
  - rewrite Forall_forall in Hlo. apply Hlo, list_elem_of_In. assumption.
  - rewrite Forall_forall in Hhi. apply Hhi, list_elem_of_In. assumption.
Qed.

Lemma GetSummary_min_max_attained_witness :
  exists sm,
    GetSummary (collector_of [40; 10; 30; 20]) = Some sm
    /\ Summary.MinLatency sm <= 30 <= Summary.MaxLatency sm.
Proof.
  destruct (GetSummary_min_max_attained (collector_of [40; 10; 30; 20]))
    as (sm & Heq & _ & _ & Hall).
  - vm_compute. discriminate.
  - exists sm. split; [exact Heq|]. apply Hall. vm_compute. auto.
Defined.

(** ** Independence of the order of arrival *)

Lemma list_sum_Permutation (l l' : list Z) :
  l ≡ₚ l' -> list_sum l = list_sum l'.
Proof. induction 1; simpl; lia. Qed.

Lemma merge_sort_Permutation_eq (l l' : list Z) :
  l ≡ₚ l' -> merge_sort Z.le l = merge_sort Z.le l'.
Proof.
  intros Hp. apply (Sorted_unique Z.le).
  - apply (Sorted_merge_sort Z.le).
  - apply (Sorted_merge_sort Z.le).
  - rewrite !merge_sort_Permutation. exact Hp.
Qed.

Lemma Percentile_Permutation (l l' : list Z) (p : Q) :
  l ≡ₚ l' -> Percentile l p = Percentile l' p.
Proof.
  intros Hp. unfold Percentile.
  destruct l as [|a l0], l' as [|a' l0'].
  - reflexivity.
  - apply Permutation_nil in Hp. discriminate.
  - symmetry in Hp. apply Permutation_nil in Hp. discriminate.
  - now rewrite (merge_sort_Permutation_eq _ _ Hp).
Qed.

Lemma scan_Permutation (l l' : list Z) (a a' : Z) :
  l ≡ₚ l' -> In a l -> In a' l' ->
  fold_left scan_step l (a, a, 0) = fold_left scan_step l' (a', a', 0).
Proof.
  intros Hp Ha Ha'.
  change (a, a, 0) with (a, a, wrap64 0).
  change (a', a', 0) with (a', a', wrap64 0).
  destruct (scan_fold l a a 0)
    as (mn & mx & -> & _ & _ & Hlo & Hhi & Imn & Imx).
  destruct (scan_fold l' a' a' 0)
    as (mn' & mx' & -> & _ & _ & Hlo' & Hhi' & Imn' & Imx').
  rewrite (list_sum_Permutation _ _ Hp).
  assert (Jmn : In mn l) by (destruct Imn as [->|]; assumption).
  assert (Jmx : In mx l) by (destruct Imx as [->|]; assumption).
  assert (Jmn' : In mn' l') by (destruct Imn' as [->|]; assumption).
  assert (Jmx' : In mx' l') by (destruct Imx' as [->|]; assumption).
  rewrite Forall_forall in Hlo, Hhi, Hlo', Hhi'.
  assert (mn <= mn').
  { apply Hlo, list_elem_of_In.
    apply (Permutation_in _ (Permutation_sym Hp)). exact Jmn'. }
  assert (mn' <= mn).
  { apply Hlo', list_elem_of_In. apply (Permutation_in _ Hp). exact Jmn. }
  assert (mx' <= mx).
  { apply Hhi, list_elem_of_In.
    apply (Permutation_in _ (Permutation_sym Hp)). exact Jmx'. }
  assert (mx <= mx').
  { apply Hhi', list_elem_of_In. apply (Permutation_in _ Hp). exact Jmx. }
  do 2 f_equal; lia.
Qed.

Lemma GetSummary_same_sample (s s' : Stats.t) :
  same_sample s s' -> GetSummary s = GetSummary s'.
Proof.
  intros [Ht Hs Hf Hc Hl Hst He]. unfold GetSummary.
  rewrite <- Ht, <- Hs, <- Hf, <- Hc, <- Hst, <- He.
  destruct (Stats.Latencies s) as [|a l] eqn:El,
           (Stats.Latencies s') as [|a' l'] eqn:El'.
  - reflexivity.
  - apply Permutation_nil in Hl. discriminate.
  - symmetry in Hl. apply Permutation_nil in Hl. discriminate.
  - rewrite (scan_Permutation (a :: l) (a' :: l') a a' Hl)
      by (left; reflexivity).
    rewrite (Permutation_length Hl).
    rewrite !(Percentile_Permutation _ _ _ Hl). reflexivity.
Qed.

Lemma same_sample_refl (s : Stats.t) : same_sample s s.
Proof. split; reflexivity. Qed.

Lemma same_sample_trans (s1 s2 s3 : Stats.t) :
  same_sample s1 s2 -> same_sample s2 s3 -> same_sample s1 s3.
Proof.
  intros [? ? ? ? ? ? ?] [? ? ? ? ? ? ?].
  split; try congruence. etransitivity; eassumption.
Qed.

Lemma same_sample_AddResult (s s' : Stats.t) (r : Result.t) :
  same_sample s s' -> same_sample (AddResult s r) (AddResult s' r).
Proof.
  intros [Ht Hs Hf Hc Hl Hst He]. unfold AddResult.
  split; cbn [Stats.TotalRequests Stats.SuccessRequests Stats.FailedRequests
              Stats.StatusCodeCounts Stats.Latencies Stats.StartTime
              Stats.EndTime];
    rewrite <- ?Ht, <- ?Hs, <- ?Hf, <- ?Hc, <- ?Hst, <- ?He;
    try reflexivity.
  now rewrite Hl.
Qed.

Lemma map_incr_comm (m : gmap Z Z) (a b : Z) :
  map_incr (map_incr m a) b = map_incr (map_incr m b) a.
Proof.
  destruct (Z.eq_dec a b) as [->|Hne]; [reflexivity|].
  unfold map_incr.
  rewrite (lookup_insert_ne _ a b) by exact Hne.
  rewrite (lookup_insert_ne _ b a) by congruence.
  apply insert_insert_ne. congruence.
Qed.

Lemma counts_AddResult (s : Stats.t) (r : Result.t) :
  Stats.StatusCodeCounts (AddResult s r)
  = match hist_key r with
    | Some k => map_incr (Stats.StatusCodeCounts s) k
    | None => Stats.StatusCodeCounts s
    end.
Proof.
  unfold AddResult, hist_key. cbn [Stats.StatusCodeCounts].
  destruct (is_err (Result.Error r) && (Result.StatusCode r =? 0));
    [reflexivity|].
  destruct (0 <? Result.StatusCode r); reflexivity.
Qed.

Lemma same_sample_swap (s : Stats.t) (x y : Result.t) :
  same_sample (AddResult (AddResult s y) x) (AddResult (AddResult s x) y).
Proof.
  split.
  - reflexivity.
  - unfold AddResult. cbn [Stats.SuccessRequests].
    destruct (is_err (Result.Error x) || (400 <=? Result.StatusCode x)),
             (is_err (Result.Error y) || (400 <=? Result.StatusCode y));
      reflexivity.
  - unfold AddResult. cbn [Stats.FailedRequests].
    destruct (is_err (Result.Error x) || (400 <=? Result.StatusCode x)),
             (is_err (Result.Error y) || (400 <=? Result.StatusCode y));
      reflexivity.
  - rewrite !counts_AddResult.
    destruct (hist_key x), (hist_key y); try reflexivity.
    apply map_incr_comm.
  - unfold AddResult. cbn [Stats.Latencies].
    rewrite <- !app_assoc. apply Permutation_app_head. apply perm_swap.
  - reflexivity.
  - reflexivity.
Qed.

Lemma same_sample_fold (l : list Result.t) : forall s s',
  same_sample s s' ->
  same_sample (fold_left AddResult l s) (fold_left AddResult l s').
Proof.
  induction l as [|r l IH]; intros s s' H; [exact H|].
  simpl. apply IH. now apply same_sample_AddResult.
Qed.

Lemma same_sample_Permutation (rs rs' : list Result.t) :
  rs ≡ₚ rs' -> forall s s',
  same_sample s s' ->
  same_sample (fold_left AddResult rs s) (fold_left AddResult rs' s').
Proof.
  induction 1 as [|x l l' _ IH|x y l|l1 l2 l3 _ IH1 _ IH2]; intros s s' H.
  - exact H.
  - simpl. apply IH. now apply same_sample_AddResult.
  - simpl. apply (same_sample_trans _ (fold_left AddResult l
                                         (AddResult (AddResult s x) y))).
    + apply same_sample_fold. apply same_sample_swap.
    + apply same_sample_fold. do 2 apply same_sample_AddResult. exact H.
  - apply (same_sample_trans _ (fold_left AddResult l2 s)).
    + apply IH1. apply same_sample_refl.
    + apply IH2. exact H.
Qed.

(** X7. The Summary does not depend on the order in which the Results
    arrive: adding the same Results in any other order to a collector
    created at the same instant, and finalizing at the same instant, gives
    the same counters and histogram and an equal Summary, field for field. *)
Theorem Summary_order_independent (now fin : Z) (rs rs' : list Result.t) :
  rs ≡ₚ rs' ->
  let s := Finalize (fold_left AddResult rs (NewStats now)) fin in
  let s' := Finalize (fold_left AddResult rs' (NewStats now)) fin in
  GetSummary s = GetSummary s'
  /\ GetProgressStats s = GetProgressStats s'
  /\ Stats.StatusCodeCounts s = Stats.StatusCodeCounts s'.
Proof.
  intros Hp s s'.
  pose proof (same_sample_Permutation rs rs' Hp _ _
                (same_sample_refl (NewStats now))) as [Ht Hs Hf Hc Hl Hst He].
  split; [|split].
  - apply GetSummary_same_sample. subst s s'. split; simpl; congruence.
  - subst s s'. unfold GetProgressStats. simpl. congruence.
  - subst s s'. simpl. exact Hc.
Qed.

Lemma Summary_order_independent_witness :
  GetSummary (Finalize (fold_left AddResult [ok200; err500; net_error]
                                  (NewStats 0)) 5)
  = GetSummary (Finalize (fold_left AddResult [net_error; ok200; err500]
                                    (NewStats 0)) 5).
Proof.
  apply (Summary_order_independent 0 5 [ok200; err500; net_error]
           [net_error; ok200; err500]).
  change [ok200; err500; net_error] with ([ok200; err500] ++ [net_error]).
  apply Permutation_app_comm.
Defined.

(** * Further properties of the endpoint selector *)

(** X8. Over an empty list there is no rotator ([NewURLRotator] returns
    nil), and [Next] on the nil rotator, or on one without URLs, returns the
    empty string at every call and leaves the rotator as it is. *)
Theorem Next_without_urls (r : option URLRotator.t) (n : nat) :
  NewURLRotator [] = None
  /\ (r = None \/ (exists i, r = Some (URLRotator.mk [] i)) ->
      sequential_calls n r = repeat (Some EmptyString) n
      /\ after_calls n r = r).
Proof.
  split; [reflexivity|].
  intros Hr.
  assert (HN : Next r = (Some EmptyString, r))
    by (destruct Hr as [->|[i ->]]; reflexivity).
  clear Hr. induction n as [|n [IH1 IH2]]; [split; reflexivity|].
  simpl. rewrite HN. simpl. rewrite IH1, IH2. split; reflexivity.
Qed.

Lemma Next_without_urls_witness :
  sequential_calls 3 (NewURLRotator [])
  = [Some EmptyString; Some EmptyString; Some EmptyString].
Proof.
  destruct (Next_without_urls (NewURLRotator []) 3) as [_ H].
  destruct H as [H _]; [left; reflexivity | exact H].
Defined.

Lemma rotation_shift (urls : list string) (n j : nat) :
  urls <> [] ->
  map (fun k => urls !! (k mod length urls)%nat) (seq (length urls + j) n)
  = map (fun k => urls !! (k mod length urls)%nat) (seq j n).
Proof.
  intros Hne. rewrite <- fmap_add_seq.
  change (Nat.add (length urls) <$> seq j n)
    with (map (Nat.add (length urls)) (seq j n)).
  rewrite map_map. apply map_ext. intros k.
  assert (length urls <> 0)%nat by (destruct urls; [congruence | simpl; lia]).
  f_equal.
  replace (length urls + k)%nat with (k + 1 * length urls)%nat by lia.
  apply Nat.Div0.mod_add.
Qed.

Lemma rotation_first_cycle (urls : list string) :
  map (fun k => urls !! (k mod length urls)%nat) (seq 0 (length urls))
  = map Some urls.
Proof.
  apply list_eq. intros i.
  change (map ?f ?l) with (f <$> l).
  rewrite !list_lookup_fmap.
  destruct (lt_dec i (length urls)) as [Hi|Hi].
  - rewrite lookup_seq_lt by exact Hi. simpl.
    rewrite Nat.mod_small by exact Hi.
    destruct (lookup_lt_is_Some_2 urls i Hi) as [u Hu]. rewrite Hu.
    reflexivity.
  - rewrite lookup_seq_ge by lia.
    rewrite (lookup_ge_None_2 urls i) by lia. reflexivity.
Qed.

Lemma rotation_cycles (urls : list string) (m : nat) :
  urls <> [] ->
  map (fun k => urls !! (k mod length urls)%nat) (seq 0 (m * length urls))
  = concat (repeat (map Some urls) m).
Proof.
  intros Hne. induction m as [|m IH]; [reflexivity|].
  simpl Nat.mul. rewrite seq_app, map_app. simpl repeat. simpl concat.
  rewrite rotation_first_cycle. f_equal.
  rewrite <- IH.
  replace (0 + length urls)%nat with (length urls + 0)%nat by lia.
  apply rotation_shift. exact Hne.
Qed.

(** X9. Every URL is served once per cycle: over a non-empty list of [K]
    URLs, [m * K] sequential calls of [Next] (at most [max_int64] calls, or
    any number when [K = 1]) return the whole list in its order, [m] times
    over. *)
Theorem Next_full_cycles (urls : list string) (m : nat) :
  urls <> [] ->
  Z.of_nat (m * length urls) <= max_int64 \/ length urls = 1%nat ->
  sequential_calls (m * length urls) (NewURLRotator urls)
  = concat (repeat (map Some urls) m).
Proof.
  intros Hne Hn.
  rewrite sequential_calls_rotation by assumption.
  apply rotation_cycles. exact Hne.
Qed.

Lemma Next_full_cycles_witness :
  sequential_calls 6 (NewURLRotator [A; B; C])
  = [Some A; Some B; Some C; Some A; Some B; Some C].
Proof.
  apply (Next_full_cycles [A; B; C] 2).
  - discriminate.
  - left. vm_compute. discriminate.
Defined.

Lemma after_calls_many (us : list string) (n : nat) : forall j : nat,
  (2 <= length us)%nat -> Z.of_nat j + Z.of_nat n <= max_int64 ->
  after_calls n (Some (URLRotator.mk us (Z.of_nat j)))
  = Some (URLRotator.mk us (Z.of_nat (j + n))).
Proof.
  induction n as [|n IH]; intros j HK Hj.
  - simpl. now rewrite Nat.add_0_r.
  - cbn [after_calls]. rewrite Next_step by lia. cbn [snd].
    rewrite IH by lia. do 3 f_equal. lia.
Qed.

(** X10. The counter of the rotator counts the calls: over two or more URLs,
    after [n] sequential calls (at most [max_int64]) the rotator holds the
    same URL list and the counter [n].  Over a single URL the counter is
    never touched. *)
Theorem Next_counts_calls (urls : list string) (n : nat) :
  (2 <= length urls)%nat \/ length urls = 1%nat ->
  Z.of_nat n <= max_int64 \/ length urls = 1%nat ->
  after_calls n (NewURLRotator urls)
  = Some (URLRotator.mk urls
            (if (length urls =? 1)%nat then 0 else Z.of_nat n)).
Proof.
  intros HK Hn.
  destruct urls as [|a [|b t]]; [simpl in HK; lia | |].
  - simpl Nat.eqb. cbv iota. unfold NewURLRotator.
    clear. induction n as [|n IH]; [reflexivity | exact IH].
  - destruct Hn as [Hn|Hn]; [|simpl in Hn; lia].
    exact (after_calls_many (a :: b :: t) n 0
             ltac:(simpl length; lia) ltac:(lia)).
Qed.

Lemma Next_counts_calls_witness :
  after_calls 7 (NewURLRotator [A; B; C])
  = Some (URLRotator.mk [A; B; C] 7)
  /\ after_calls 7 (NewURLRotator [A]) = Some (URLRotator.mk [A] 0).
Proof.
  split.
  - apply (Next_counts_calls [A; B; C] 7).
    + left. simpl. lia.
    + left. vm_compute. discriminate.
  - apply (Next_counts_calls [A] 7); right; reflexivity.
Defined.

(** X11. The counter wraps around after [max_int64]: the call made at
    counter [max_int64] still returns a URL and leaves the counter at
    [min_int64]; and at a negative counter that is not a multiple of the
    number of URLs (two or more), the position computed by [%] is negative
    and [Next] ends in an index-out-of-range panic. *)
Theorem Next_after_wrap_around (us : list string) (i : Z) :
  (2 <= length us)%nat ->
  Next (Some (URLRotator.mk us max_int64))
  = (us !! Z.to_nat (max_int64 mod Z.of_nat (length us)),
     Some (URLRotator.mk us min_int64))
  /\ (min_int64 <= i < 0 -> Z.rem i (Z.of_nat (length us)) <> 0 ->
      fst (Next (Some (URLRotator.mk us i))) = None).
Proof.
  intros HK.
  destruct us as [|a [|b t]]; [simpl in HK; lia | simpl in HK; lia |].
  assert (HKz : 0 < Z.of_nat (length (a :: b :: t))) by (simpl length; lia).
  split.
  - unfold Next. cbn [URLRotator.urls URLRotator.idx].
    set (us := a :: b :: t) in *.
    change (add max_int64 1) with min_int64.
    change (add min_int64 (-1)) with max_int64.
    rewrite Z.rem_mod_nonneg by (pose proof max_int64_pos; lia).
    rewrite index_nonneg by (apply Z.mod_pos_bound; lia).
    reflexivity.
  - intros Hi Hrem. unfold Next.
    cbn [URLRotator.urls URLRotator.idx fst].
    set (us := a :: b :: t) in *.
    rewrite (add_exact i 1)
      by (unfold in_int64, min_int64, max_int64 in *; lia).
    rewrite (add_exact (i + 1) (-1))
      by (unfold in_int64, min_int64, max_int64 in *; lia).
    replace (i + 1 + -1) with i by lia.
    unfold index.
    pose proof (Z.rem_nonpos i (Z.of_nat (length us)) ltac:(lia) ltac:(lia)).
    destruct (Z.ltb_spec (Z.rem i (Z.of_nat (length us))) 0);
      [reflexivity | lia].
Qed.

Lemma Next_after_wrap_around_witness :
  fst (Next (Some (URLRotator.mk [A; B; C] min_int64))) = None.
Proof.
  apply (Next_after_wrap_around [A; B; C] min_int64).
  - simpl. lia.
  - vm_compute. split; [discriminate | reflexivity].
  - vm_compute. discriminate.
Defined.

(** * Further properties of the worker *)

Lemma Do_paired NR RT sb sr req :
  let resp := httpclient.Do NR RT sb sr req in
  paired (Result.mk (httpclient.Response.Latency resp)
                    (httpclient.Response.StatusCode resp)
                    (httpclient.Response.Error resp)).
Proof.
  unfold paired, httpclient.Do. simpl.
  destruct (NR req); [reflexivity|].
  destruct (RT req); simpl; [reflexivity | discriminate].
Qed.

Lemma Do_recorded NR RT sb sr req :
  (forall status, RT req = inr status -> 0 < status) ->
  let resp := httpclient.Do NR RT sb sr req in
  recorded (Result.mk (httpclient.Response.Latency resp)
                      (httpclient.Response.StatusCode resp)
                      (httpclient.Response.Error resp)) = true.
Proof.
  intros Hpos. unfold recorded, httpclient.Do. simpl.
  destruct (NR req); [reflexivity|].
  destruct (RT req) as [err|status]; simpl; [reflexivity|].
  specialize (Hpos status eq_refl).
  destruct (Z.ltb_spec 0 status); [reflexivity | lia].
Qed.

Lemma deliver_Delivered pick ctx_done ch result ch' :
  deliver pick ctx_done ch result = Delivered ch' ->
  Chan.closed ch = false
  /\ (length (Chan.buf ch) < Chan.cap ch)%nat
  /\ ch' = Chan.mk (Chan.buf ch ++ [result]) (Chan.cap ch) false.
Proof.
  unfold deliver.
  destruct (nth_error (ready_cases ctx_done ch)
                      (pick mod length (ready_cases ctx_done ch)))
    as [[|]|] eqn:E; try discriminate.
  destruct (Chan.closed ch) eqn:Ec; [discriminate|].
  intros [= <-]. split; [reflexivity|]. split; [|reflexivity].
  apply nth_error_In in E. unfold ready_cases, send_ready in E.
  rewrite Ec in E. simpl in E.
  destruct (Nat.ltb_spec (length (Chan.buf ch)) (Chan.cap ch)); [assumption|].
  destruct ctx_done; simpl in E; intuition discriminate.
Qed.

(** What [Start] does to its worker, whatever the rounds. *)
Lemma Start_adds (rounds : list Round.t) : forall w,
  exists added,
    Chan.buf (Worker.results (fst (Start w rounds)))
    = Chan.buf (Worker.results w) ++ added
    /\ (length added <= length rounds)%nat
    /\ Chan.cap (Worker.results (fst (Start w rounds)))
       = Chan.cap (Worker.results w)
    /\ Chan.closed (Worker.results (fst (Start w rounds)))
       = Chan.closed (Worker.results w)
    /\ Worker.request (fst (Start w rounds)) = Worker.request w
    /\ ((length (Chan.buf (Worker.results w)) <= Chan.cap (Worker.results w))%nat ->
        (length (Chan.buf (Worker.results w) ++ added)
         <= Chan.cap (Worker.results w))%nat)
    /\ (Chan.closed (Worker.results w) = true -> added = [])
    /\ Forall paired added
    /\ (Forall positive_statuses rounds ->
        Forall (fun r => recorded r = true) added).
Proof.
  induction rounds as [|e rest IH]; intros w.
  { exists []. simpl. rewrite app_nil_r. repeat split; auto. }
  assert (Hstop : forall w', Worker.results w' = Worker.results w ->
            Worker.request w' = Worker.request w ->
            exists added,
              Chan.buf (Worker.results w')
              = Chan.buf (Worker.results w) ++ added
              /\ (length added <= length (e :: rest))%nat
              /\ Chan.cap (Worker.results w') = Chan.cap (Worker.results w)
              /\ Chan.closed (Worker.results w')
                 = Chan.closed (Worker.results w)
              /\ Worker.request w' = Worker.request w
              /\ ((length (Chan.buf (Worker.results w))
                   <= Chan.cap (Worker.results w))%nat ->
                  (length (Chan.buf (Worker.results w) ++ added)
                   <= Chan.cap (Worker.results w))%nat)
              /\ (Chan.closed (Worker.results w) = true -> added = [])
              /\ Forall paired added
              /\ (Forall positive_statuses (e :: rest) ->
                  Forall (fun r => recorded r = true) added)).
  { intros w' Hr Hq. exists []. rewrite Hr, app_nil_r.
    repeat split; simpl; auto; lia. }
  cbn [Start].
  destruct (Round.done_at_top e); [apply Hstop; reflexivity|].
  destruct (negb (Round.permit e)); [apply Hstop; reflexivity|].
  destruct (Next (Worker.urlRotator w)) as [selected rot].
  destruct selected as [[|c url]|]; [| |apply Hstop; reflexivity].
  - destruct (IH (Worker.mk (Worker.request w) (Worker.results w) rot))
      as (added & Hb & Hl & Hc & Hcl & Hq & Hcap & Hclosed & Hp & Hrec).
    exists added. cbn [Worker.results Worker.request] in *.
    repeat split; try assumption.
    + simpl. lia.
    + intros Hall. apply Hrec. now inversion Hall.
  - set (request := httpclient.Request.mk _ _ _ _ _).
    set (resp := httpclient.Do _ _ _ _ request).
    set (result := Result.mk _ _ _).
    destruct (deliver (Round.pick e) (Round.done_at_send e)
                      (Worker.results w) result) as [| |ch|] eqn:Ed;
      [apply Hstop; reflexivity | apply Hstop; reflexivity |
       | apply Hstop; reflexivity].
    apply deliver_Delivered in Ed as (Hopen & Hroom & ->).
    destruct (IH (Worker.mk (Worker.request w)
                    (Chan.mk (Chan.buf (Worker.results w) ++ [result])
                             (Chan.cap (Worker.results w)) false) rot))
      as (added & Hb & Hl & Hc & Hcl & Hq & Hcap & Hclosed & Hp & Hrec).
    cbn [Worker.results Worker.request Chan.buf Chan.cap Chan.closed] in *.
    exists (result :: added).
    repeat split.
    + rewrite Hb, <- app_assoc. reflexivity.
    + simpl. lia.
    + exact Hc.
    + rewrite Hcl. symmetry. exact Hopen.
    + exact Hq.
    + intros _. rewrite <- app_assoc in Hcap.
      apply Hcap. rewrite length_app. simpl. lia.
    + rewrite Hopen. discriminate.
    + constructor; [apply Do_paired | exact Hp].
    + intros Hall. inversion Hall as [|? ? He Hrest]; subst.
      constructor; [|apply Hrec; exact Hrest].
      apply Do_recorded. intros status. apply He.
Qed.





(** X14. A worker without an endpoint never makes a request: with a nil
    rotator, or a rotator over the single empty URL, every selection yields
    the empty string and the round is skipped, so [Start] leaves the worker
    as it is -- channel included -- however many rounds it runs, and leaves
    the loop only when the context is done or a permit is refused. *)
Theorem Start_without_endpoint (w : Worker.t) (rounds : list Round.t) :
  Worker.urlRotator w = None
  \/ Worker.urlRotator w = NewURLRotator [EmptyString] ->
  fst (Start w rounds) = w
  /\ snd (Start w rounds)
     = existsb (fun e => Round.done_at_top e || negb (Round.permit e)) rounds.
Proof.
  intros Hr.
  assert (HN : Next (Worker.urlRotator w)
               = (Some EmptyString, Worker.urlRotator w))
    by (destruct Hr as [->| ->]; reflexivity).
  clear Hr. induction rounds as [|e rest [IH1 IH2]]; [split; reflexivity|].
  cbn [Start existsb].
  destruct (Round.done_at_top e); [split; reflexivity|].
  destruct (negb (Round.permit e)); [split; reflexivity|].
  rewrite HN.
  replace (Worker.mk (Worker.request w) (Worker.results w)
                     (Worker.urlRotator w)) with w by (destruct w; reflexivity).
  split; assumption.
Qed.

Lemma Start_without_endpoint_witness :
  let w := Worker.mk (httpclient.Request.mk "GET" "" "" ∅ None)
                     (Chan.mk [] 10 false) (NewURLRotator []) in
  fst (Start w [live_200; live_200; live_200]) = w.
Proof.
  intros w.
  apply (Start_without_endpoint w [live_200; live_200; live_200]).
  left. reflexivity.
Defined.

Lemma sequential_calls_lookup (n : nat) : forall r k,
  (k < n)%nat ->
  sequential_calls n r !! k = Some (fst (Next (after_calls k r))).
Proof.
  induction n as [|n IH]; intros r k Hk; [lia|].
  cbn [sequential_calls]. destruct (Next r) as [u r'] eqn:E.
  destruct k as [|k]; cbn [after_calls].
  - rewrite E. reflexivity.
  - rewrite E. cbn [snd]. simpl. apply IH. lia.
Qed.

Lemma deliver_live pick ch result :
  Chan.closed ch = false -> (length (Chan.buf ch) < Chan.cap ch)%nat ->
  deliver pick false ch result
  = Delivered (Chan.mk (Chan.buf ch ++ [result]) (Chan.cap ch) false).
Proof.
  intros Hopen Hroom. unfold deliver, ready_cases, send_ready.
  rewrite Hopen. apply Nat.ltb_lt in Hroom. rewrite Hroom.
  cbn [orb app length]. rewrite Nat.mod_1_r. reflexivity.
Qed.

Lemma Start_live (rounds : list Round.t) : forall w,
  Forall live rounds ->
  Chan.closed (Worker.results w) = false ->
  (length (Chan.buf (Worker.results w)) + length rounds
   <= Chan.cap (Worker.results w))%nat ->
  (forall k, (k < length rounds)%nat ->
     exists u, fst (Next (after_calls k (Worker.urlRotator w))) = Some u
               /\ u <> EmptyString) ->
  snd (Start w rounds) = false
  /\ length (Chan.buf (Worker.results (fst (Start w rounds))))
     = (length (Chan.buf (Worker.results w)) + length rounds)%nat
  /\ Worker.urlRotator (fst (Start w rounds))
     = after_calls (length rounds) (Worker.urlRotator w).
Proof.
  induction rounds as [|e rest IH]; intros w Hlive Hopen Hroom Hurl.
  { simpl. repeat split. lia. }
  inversion Hlive as [|? ? (Htop & Hpermit & Hsend) Hrest]; subst.
  cbn [Start]. rewrite Htop, Hpermit. cbn [negb].
  destruct (Hurl 0%nat ltac:(simpl; lia)) as (u & Hu & Hne).
  cbn [after_calls] in Hu.
  destruct (Next (Worker.urlRotator w)) as [selected rot] eqn:EN.
  cbn [fst] in Hu. subst selected.
  destruct u as [|c url]; [congruence|].
  rewrite Hsend.
  simpl length in Hroom.
  rewrite deliver_live by (assumption || lia).
  set (w1 := Worker.mk _ _ rot).
  destruct (IH w1) as (H1 & H2 & H3).
  - exact Hrest.
  - reflexivity.
  - subst w1. cbn [Worker.results Chan.buf Chan.cap].
    rewrite length_app. simpl. lia.
  - intros k Hk. subst w1. cbn [Worker.urlRotator].
    specialize (Hurl (S k) ltac:(simpl; lia)).
    cbn [after_calls] in Hurl. rewrite EN in Hurl. exact Hurl.
  - split; [exact H1|]. split.
    + rewrite H2. subst w1. cbn [Worker.results Chan.buf].
      rewrite length_app. simpl. lia.
    + rewrite H3. subst w1. cbn [Worker.urlRotator after_calls length].
      rewrite EN. reflexivity.
Qed.



(** * Further properties of the orchestrator *)



(** * Further properties of the command *)

Lemma cut_colon_app (key value : string) :
  cut_colon key = None ->
  cut_colon (key ++ String ":"%char value) = Some (key, value).
Proof.
  induction key as [|c key IH]; intros H; simpl in *; [reflexivity|].
  destruct (Ascii.eqb c ":"%char); [discriminate|].
  destruct (cut_colon key) as [[k v]|]; [discriminate|].
  now rewrite IH.
Qed.

(** X18. A header is split at its first colon, and only there: when
    [cut_colon] yields a key and a value, the header is the key, a colon and
    the value, and the key holds no colon; conversely a colon-free key
    followed by a colon and any value is split back into the two.  A header
    without a colon is not split at all. *)
Theorem cut_colon_round_trip (h key value : string) :
  (cut_colon h = Some (key, value) ->
   h = (key ++ String ":"%char value)%string /\ cut_colon key = None)
  /\ (cut_colon key = None ->
      cut_colon (key ++ String ":"%char value) = Some (key, value)).
Proof.
  split; [|apply cut_colon_app].
  revert key. induction h as [|c h IH]; intros key H; simpl in H;
    [discriminate|].
  destruct (Ascii.eqb_spec c ":"%char) as [->|Hc].
  - injection H as <- <-. split; reflexivity.
  - destruct (cut_colon h) as [[k v]|]; [|discriminate].
    injection H as <- <-. destruct (IH k eq_refl) as [-> Hk].
    split; [reflexivity|]. simpl.
    destruct (Ascii.eqb_spec c ":"%char); [congruence|]. now rewrite Hk.
Qed.

Lemma cut_colon_round_trip_witness :
  cut_colon "Content-Type: application/json"
  = Some ("Content-Type", " application/json")%string.
Proof.
  apply (proj2 (cut_colon_round_trip EmptyString "Content-Type"
                  " application/json")).
  reflexivity.
Defined.

Section HeaderProperties.
Variable TrimSpace : string -> string.

Lemma parse_headers_app (hs : list string) : forall h m,
  parse_headers TrimSpace (hs ++ [h]) m
  = match parse_headers TrimSpace hs m with
    | inl err => inl err
    | inr m' => parse_headers TrimSpace [h] m'
    end.
Proof.
  induction hs as [|h0 hs IH]; intros h m; simpl.
  - destruct (cut_colon h) as [[k v]|]; reflexivity.
  - destruct (cut_colon h0) as [[k v]|]; [apply IH | reflexivity].
Qed.

Lemma parse_headers_ok (hs : list string) : forall m,
  (exists m', parse_headers TrimSpace hs m = inr m')
  <-> Forall (fun h => cut_colon h <> None) hs.
Proof.
  induction hs as [|h hs IH]; intros m; simpl.
  - split; [constructor | eauto].
  - destruct (cut_colon h) as [[k v]|] eqn:E.
    + rewrite IH. split.
      * intros H. constructor; [congruence | exact H].
      * intros H. now inversion H.
    + split.
      * intros [m' H]. discriminate.
      * intros H. inversion H. congruence.
Qed.
End HeaderProperties.

(** X19. The header flags are accepted exactly when every one of them holds
    a colon; and a later flag overrides an earlier one with the same key:
    after a successful parse, the map holds, under the trimmed key of the
    last flag, the trimmed value of that flag. *)
Theorem parse_headers_accepts (TrimSpace : string -> string)
    (headers : list string) :
  ((exists headerMap, parse_headers TrimSpace headers ∅ = inr headerMap)
   <-> Forall (fun h => cut_colon h <> None) headers)
  /\ (forall h key value headerMap,
        parse_headers TrimSpace (headers ++ [h]) ∅ = inr headerMap ->
        cut_colon h = Some (key, value) ->
        headerMap !! TrimSpace key = Some (TrimSpace value)).
Proof.
  split; [apply parse_headers_ok|].
  intros h key value headerMap Hp Hc.
  rewrite parse_headers_app in Hp.
  destruct (parse_headers TrimSpace headers ∅) as [err|m']; [discriminate|].
  simpl in Hp. rewrite Hc in Hp. injection Hp as <-.
  apply lookup_insert_eq.
Qed.

Lemma parse_headers_accepts_witness :
  exists headerMap,
    parse_headers trim_left (["Accept: text/html"] ++ ["Accept: */*"]) ∅
    = inr headerMap
    /\ headerMap !! "Accept"%string = Some "*/*"%string.
Proof.
  destruct (parse_headers trim_left
              (["Accept: text/html"] ++ ["Accept: */*"]) ∅)
    as [err|headerMap] eqn:E; [vm_compute in E; discriminate|].
  exists headerMap. split; [reflexivity|].
  apply (proj2 (parse_headers_accepts trim_left ["Accept: text/html"])
           "Accept: */*" "Accept" " */*" headerMap E)%string.
  reflexivity.
Defined.



(** * Further properties of the JSON report *)

Lemma pretty_N_go_no_leading_e (x : N) : forall s,
  no_leading_e s -> no_leading_e (pretty_N_go x s).
Proof.
  induction (N.lt_wf_0 x) as [x _ IH]. intros s Hs.
  destruct (N.eq_dec x 0%N) as [->|Hx]; [now rewrite pretty_N_go_0|].
  rewrite pretty_N_go_step by lia.
  apply IH; [apply N.div_lt; lia|].
  simpl. unfold pretty_N_char.
  repeat case_match; discriminate.
Qed.

Lemma pretty_Z_no_leading_e (z : Z) : no_leading_e (pretty z).
Proof.
  assert (HN : forall n : N, no_leading_e (pretty n)).
  { intros n. unfold pretty, pretty_N. case_decide; [simpl; discriminate|].
    now apply pretty_N_go_no_leading_e. }
  destruct z as [|p|p].
  - simpl. discriminate.
  - apply (HN (Npos p)).
  - simpl. discriminate.
Qed.

Lemma status_key_inj (a b : Z) : status_key a = status_key b -> a = b.
Proof.
  unfold status_key.
  destruct (Z.eqb_spec a 0) as [->|Ha], (Z.eqb_spec b 0) as [->|Hb];
    intros H.
  - reflexivity.
  - pose proof (pretty_Z_no_leading_e b) as Hn. rewrite <- H in Hn.
    simpl in Hn. congruence.
  - pose proof (pretty_Z_no_leading_e a) as Hn. rewrite H in Hn.
    simpl in Hn. congruence.
  - now apply (inj pretty).
Qed.

Lemma json_status_codes_spec (m : gmap Z Z) : json_of (json_status_codes m) m.
Proof.
  unfold json_status_codes.
  apply (map_fold_weak_ind (fun r m => json_of r m)).
  - split.
    + intros code. now rewrite !lookup_empty.
    + intros key _. apply lookup_empty.
    + now rewrite !map_size_empty.
  - intros i x m0 r Hi [Hl Ho Hs]. split.
    + intros code. destruct (Z.eq_dec i code) as [->|Hne].
      * now rewrite !lookup_insert_eq.
      * rewrite !lookup_insert_ne; [apply Hl | exact Hne |].
        intros E. apply status_key_inj in E. congruence.
    + intros key Hkey. rewrite lookup_insert_ne; [now apply Ho|].
      intros E. exact (Hkey i (eq_sym E)).
    + rewrite !map_size_insert_None; [now rewrite Hs | exact Hi |].
      now rewrite Hl.
Qed.

(** X21. The JSON report loses nothing of the histogram: every status code
    has its count under its own key -- ["error"] for the 0 sentinel, the
    decimal numeral otherwise -- no two codes share a key, the report has as
    many entries as the histogram, and no entry under any other key;
    whatever the order in which the map is traversed. *)
Theorem json_status_codes_faithful (counts : gmap Z Z) :
  (forall code, json_status_codes counts !! status_key code = counts !! code)
  /\ json_status_codes counts !! "error"%string = counts !! 0
  /\ (forall a b, status_key a = status_key b -> a = b)
  /\ size (json_status_codes counts) = size counts
  /\ (forall key, (forall code, key <> status_key code) ->
                  json_status_codes counts !! key = None).
Proof.
  destruct (json_status_codes_spec counts) as [Hl Ho Hs].
  split; [exact Hl|]. split; [exact (Hl 0)|].
  split; [exact status_key_inj|]. split; [exact Hs | exact Ho].
Qed.

Lemma json_status_codes_faithful_witness :
  json_status_codes {[ 200 := 7; 0 := 2; 503 := 1 ]} !! "503"%string = Some 1
  /\ json_status_codes {[ 200 := 7; 0 := 2; 503 := 1 ]} !! "error"%string
     = Some 2.
Proof.
  destruct (json_status_codes_faithful {[ 200 := 7; 0 := 2; 503 := 1 ]})
    as (Hl & He & _).
  split; [exact (Hl 503) | exact He].
Defined.

(** * Further properties of the delivery step *)

(** X22. A worker cannot be held up by the channel once the deadline has
    fired: with the context done, the final [select] never blocks, whatever
    the state of the channel and the choice of the run-time, and on a full
    open channel it always makes the worker return.  With a live context a
    full open channel blocks the worker, and a channel with room takes the
    Result. *)
Theorem deliver_never_blocks_when_done (pick : nat) (ch : Chan.t)
    (result : Result.t) :
  deliver pick true ch result <> Blocked
  /\ (Chan.closed ch = false ->
      (Chan.cap ch <= length (Chan.buf ch))%nat ->
      deliver pick true ch result = Exit
      /\ deliver pick false ch result = Blocked)
  /\ (Chan.closed ch = false ->
      (length (Chan.buf ch) < Chan.cap ch)%nat ->
      deliver pick false ch result
      = Delivered (Chan.mk (Chan.buf ch ++ [result]) (Chan.cap ch) false)).
Proof.
  split; [|split].
  - unfold deliver, ready_cases.
    destruct (send_ready ch); cbn [app length].
    + pose proof (Nat.mod_upper_bound pick 2 ltac:(lia)) as Hlt.
      destruct (pick mod 2)%nat as [|[|k]]; [discriminate | | lia].
      cbn [nth_error]. destruct (Chan.closed ch); discriminate.
    + rewrite Nat.mod_1_r. discriminate.
  - intros Hopen Hfull. unfold deliver, ready_cases, send_ready.
    rewrite Hopen. apply Nat.ltb_ge in Hfull. rewrite Hfull.
    cbn [orb app length]. rewrite Nat.mod_1_r.
    split; [reflexivity|]. now destruct (pick mod 0)%nat.
  - intros Hopen Hroom. now apply deliver_live.
Qed.

Lemma deliver_never_blocks_when_done_witness :
  deliver 5 true (Chan.mk [ok200] 1 false) abandoned = Exit.
Proof.
  apply (deliver_never_blocks_when_done 5 (Chan.mk [ok200] 1 false) abandoned);
    [reflexivity | simpl; lia].
Defined.
